(** * Generator.h: lazy generators over C++20 coroutines

    A shallow embedding of [TGeneratorPromise], [TGenerator],
    [TWeakGeneratorHandle] and [TGeneratorIterator], and the properties of
    the resume / iterate / pin protocol.

    Conventions of the embedding.
    - The build modelled is the default one, [PLATFORM_EXCEPTIONS_DISABLED]
      undefined: the promise has its [Exception] member.
    - [HasValue], [GetCurrentValuePtr] and [operator*] spell the promise
      member [CurrentValue]; the only data member of that kind is
      [CurrentValuePtr], and that is the member they are taken to read.
    - [TSharedPtr] and [TWeakPtr] are Unreal Engine's: a control block with a
      shared reference count, the deleter run when the count drops to zero,
      [TWeakPtr::IsValid] true while the count is positive, and weak pointers
      compared through the objects they pin to.
    - [TWeakGeneratorHandle::Pin], and the conversion to [TGenerator<T>] that
      calls it, build their result with [TGenerator<T>{Promise.Pin()}] and
      [TGenerator<T>{}].  [TGenerator] declares one constructor, from
      [TGeneratorPromise<T>*]; it has no default constructor and none from a
      [TSharedPtr], so neither expression resolves and the two members
      cannot be instantiated.  They have no definition here.
    - [noexcept] is modelled where an exception can reach it, on
      [CreateIterator]; on the members that cannot throw it changes nothing.
    - The body of a generator is a step function on its frame: one call runs
      the body from the suspension point it is at to the next one.  What is
      yielded is an address ([yield_value] keeps [std::addressof] of its
      operand), read back through [load] in the frame as it is at the moment
      of the read. *)

From stdpp Require Import gmap strings list.

(** ** Outcomes of a call *)

Inductive Outcome (Exn A : Type) : Type :=
| Returns (a : A)               (* normal return *)
| Throws (e : Exn)              (* a C++ exception leaves the call *)
| CheckFailed (msg : string)    (* checkf(...) failed: fatal assertion *)
| Terminated                    (* std::terminate: exception out of a noexcept function *)
| Undefined.                    (* null or dangling dereference *)
Arguments Returns {Exn A} a.
Arguments Throws {Exn A} e.
Arguments CheckFailed {Exn A} msg.
Arguments Terminated {Exn A}.
Arguments Undefined {Exn A}.

(** A call is a function of the mutable state it runs in; state changes made
    before an exception or a failed check stay made. *)
Definition M (Exn S A : Type) : Type := S → Outcome Exn A * S.

Definition ret {Exn S A} (a : A) : M Exn S A := λ s, (Returns a, s).

Definition bind {Exn S A B} (m : M Exn S A) (k : A → M Exn S B) : M Exn S B :=
  λ s, match m s with
       | (Returns a, s') => k a s'
       | (Throws e, s') => (Throws e, s')
       | (CheckFailed msg, s') => (CheckFailed msg, s')
       | (Terminated, s') => (Terminated, s')
       | (Undefined, s') => (Undefined, s')
       end.

Definition throw {Exn S A} (e : Exn) : M Exn S A := λ s, (Throws e, s).
Definition undefined {Exn S A} : M Exn S A := λ s, (Undefined, s).
Definition get {Exn S} : M Exn S S := λ s, (Returns s, s).
Definition put {Exn S} (s : S) : M Exn S unit := λ _, (Returns tt, s).

(** Modelled from the spec: the macro [checkf(Cond, Msg)] of Unreal Engine,
    which the sources use and do not define.  A check that fails is a
    precondition violation, a fatal assertion failure that is not propagated
    as a value. *)
Definition checkf {Exn S} (cond : bool) (msg : string) : M Exn S unit :=
  λ s, if cond then (Returns tt, s) else (CheckFailed msg, s).

(** A function declared [noexcept]: an exception that would leave it calls
    [std::terminate] instead. *)
Definition noexcept {Exn S A} (m : M Exn S A) : M Exn S A :=
  λ s, match m s with
       | (Throws _, s') => (Terminated, s')
       | r => r
       end.

(** Run [m] with a local object alive, whose destructor [dtor] runs when the
    scope is left, by return or by an exception unwinding through it. *)
Definition scoped {Exn S A} (m : M Exn S A) (dtor : M Exn S unit) : M Exn S A :=
  λ s, match m s with
       | (Returns a, s') => bind dtor (λ _, ret a) s'
       | (Throws e, s') => bind dtor (λ _, throw e) s'
       | r => r
       end.

(** Run a call on the second component of a pair of states (the heap),
    leaving the first (the object [this] of a mutating member) alone. *)
Definition on_heap {Exn S1 S2 A} (m : M Exn S2 A) : M Exn (S1 * S2) A :=
  λ s, let '(o, s2) := m s.2 in (o, (s.1, s2)).

#[global] Instance M_ret {Exn S} : MRet (M Exn S) := λ A, ret.
#[global] Instance M_bind {Exn S} : MBind (M Exn S) := λ A B k m, bind m k.

(** ** The coroutine state and the handles *)

Section Generator.

(** [T] is the value type of [TGenerator<T>], [Exn] what a body can throw
    ([std::exception_ptr]), [Ptr] the addresses a body hands to [co_yield]
    ([T*]), [Frame] the coroutine frame with the storage the body works on. *)
Context {T Exn Ptr Frame : Type}.

(** The next suspension of the body. *)
Inductive Suspension : Type :=
| CoYield (p : Ptr) (f : Frame)     (* co_yield x: yield_value(x) with &x = p, then suspend_always *)
| CoReturn (f : Frame)              (* falls off the end: return_void, then final_suspend *)
| CoThrow (e : Exn) (f : Frame).    (* throws: unhandled_exception, then final_suspend *)

(** [body f]: run the body from the suspension point of frame [f] to its next
    suspension.  [load f p]: the object at address [p] in frame [f]. *)
Context (body : Frame → Suspension) (load : Frame → Ptr → T).

(** [struct TGeneratorPromise], with the state of its coroutine handle:
    [frame], and [done] for [std::coroutine_handle::done()] (suspended at
    [final_suspend]).  [Resumptions] is a ghost counter of the calls of
    [std::coroutine_handle::resume()], i.e. of the entries into the body. *)
Record TGeneratorPromise : Type := MkPromise {
  CurrentValuePtr : option Ptr;     (* T* CurrentValuePtr = nullptr *)
  Exception : option Exn;           (* std::exception_ptr Exception *)
  frame : Frame;
  done : bool;
  Resumptions : nat
}.

(** [get_return_object] / [initial_suspend]: the state of a coroutine that
    has been created and not started. *)
Definition initial_promise (f0 : Frame) : TGeneratorPromise :=
  MkPromise None None f0 false 0.

(** [yield_value]: [CurrentValuePtr = std::addressof(YieldedValue)] *)
Definition yield_value (p : Ptr) (P : TGeneratorPromise) : TGeneratorPromise :=
  MkPromise (Some p) (Exception P) (frame P) (done P) (Resumptions P).

(** [unhandled_exception]: [Exception = std::current_exception()] *)
Definition unhandled_exception (e : Exn) (P : TGeneratorPromise) : TGeneratorPromise :=
  MkPromise (CurrentValuePtr P) (Some e) (frame P) (done P) (Resumptions P).

(** [return_void]: empty body *)
Definition return_void (P : TGeneratorPromise) : TGeneratorPromise := P.

Definition suspend_at (f : Frame) (fin : bool) (P : TGeneratorPromise) : TGeneratorPromise :=
  MkPromise (CurrentValuePtr P) (Exception P) f fin (Resumptions P).

(** [Handle.resume()] on a coroutine that is not done. *)
Definition handle_resume (P : TGeneratorPromise) : TGeneratorPromise :=
  let P := MkPromise (CurrentValuePtr P) (Exception P) (frame P) (done P)
                     (S (Resumptions P)) in
  match body (frame P) with
  | CoYield p f => suspend_at f false (yield_value p P)
  | CoReturn f => suspend_at f true (return_void P)
  | CoThrow e f => suspend_at f true (unhandled_exception e P)
  end.

(** [TGeneratorPromise<T>::Resume]:
    [if (!Handle.done()) Handle.resume(); return !Handle.done();] *)
Definition Promise_Resume (P : TGeneratorPromise) : bool * TGeneratorPromise :=
  let P' := if negb (done P) then handle_resume P else P in
  (negb (done P'), P').

(** [TGeneratorPromise<T>::IsDone] *)
Definition Promise_IsDone (P : TGeneratorPromise) : bool := done P.

(** *** Shared and weak pointers to the coroutine state *)

(** Modelled from the spec: the control block behind Unreal Engine's
    [TSharedPtr<TGeneratorPromise<T>>] and [TWeakPtr], which the sources use
    and do not define.  It has the shared reference count and the object,
    gone once the deleter [Promise->Destroy()] has run; weak references take
    no part in the count. *)
Record ControlBlock : Type := MkBlock {
  SharedReferenceCount : nat;
  Object : option TGeneratorPromise
}.

(** Addresses of control blocks, and the heap of the control blocks that
    have been allocated. *)
Abbreviation loc := nat (only parsing).
Abbreviation Heap := (gmap loc ControlBlock) (only parsing).

(** A [TSharedPtr] and a [TWeakPtr] are the address of a control block, or
    null. *)
Record TGenerator : Type := MkGenerator { Promise : option loc }.
Record TWeakGeneratorHandle : Type := MkWeak { WeakPromise : option loc }.

(** [class TGeneratorIterator : public TWeakGeneratorHandle<T>] adds no
    member. *)
Abbreviation TGeneratorIterator := TWeakGeneratorHandle (only parsing).

#[global] Instance TGenerator_eq_dec : EqDecision TGenerator.
Proof. solve_decision. Defined.
#[global] Instance TWeakGeneratorHandle_eq_dec : EqDecision TWeakGeneratorHandle.
Proof. solve_decision. Defined.

Definition Call (A : Type) : Type := M Exn Heap A.
Definition Method (This A : Type) : Type := M Exn (This * Heap) A.

(** Modelled from the spec: the copy of a [TSharedPtr], which increments
    the shared reference count. *)
Definition AddSharedReference (l : loc) (h : Heap) : Heap :=
  match h !! l with
  | Some b => <[l := MkBlock (S (SharedReferenceCount b)) (Object b)]> h
  | None => h
  end.

(** Modelled from the spec: the destruction of a [TSharedPtr], which
    decrements the reference count; when the count reaches zero the deleter
    given in the constructor of [TGenerator], [Promise->Destroy()], destroys
    the coroutine frame and the promise in it. *)
Definition ReleaseSharedReference (l : loc) (h : Heap) : Heap :=
  match h !! l with
  | Some b =>
      match SharedReferenceCount b with
      | 0 => h
      | 1 => <[l := MkBlock 0 None]> h
      | S n => <[l := MkBlock n (Object b)]> h
      end
  | None => h
  end.

(** Modelled from the spec: [TWeakPtr::IsValid], true while the state is
    alive, i.e. while it has an owner. *)
Definition IsValid (w : option loc) (h : Heap) : bool :=
  match w with
  | Some l =>
      match h !! l with
      | Some b => bool_decide (0 < SharedReferenceCount b)
      | None => false
      end
  | None => false
  end.

(** Modelled from the spec: [TWeakPtr::Pin], a shared pointer to the state,
    with its count incremented, if the state is still alive, a null one that
    owns nothing otherwise. *)
Definition TWeakPtr_Pin (w : option loc) : Call (option loc) :=
  λ h, if IsValid w h
       then match w with
            | Some l => (Returns (Some l), AddSharedReference l h)
            | None => (Returns None, h)
            end
       else (Returns None, h).

(** Modelled from the spec: the destructor of a local [TSharedPtr]. *)
Definition TSharedPtr_dtor (sp : option loc) : Call unit :=
  λ h, match sp with
       | Some l => (Returns tt, ReleaseSharedReference l h)
       | None => (Returns tt, h)
       end.

(** Modelled from the spec: [operator==] of two [TWeakPtr], equal when both
    refer to no state that is alive or both refer to the same state.  In
    Unreal Engine it is [A.Pin().Get() == B.Pin().Get()]: [PinGet] is the
    object a weak pointer pins to; the two temporaries are released at once
    and the counts are as before. *)
Definition PinGet (w : option loc) (h : Heap) : option loc :=
  if IsValid w h then w else None.

(** Modelled from the spec: see [PinGet]. *)
Definition TWeakPtr_eq (a b : option loc) (h : Heap) : bool :=
  bool_decide (PinGet a h = PinGet b h).

(** Modelled from the spec: [operator!=] of two [TWeakPtr], in Unreal Engine
    [A.Pin().Get() != B.Pin().Get()]. *)
Definition TWeakPtr_ne (a b : option loc) (h : Heap) : bool :=
  bool_decide (PinGet a h ≠ PinGet b h).

(** [Promise->...] through a [TSharedPtr]: the promise it points to. *)
Definition deref (sp : option loc) : Call TGeneratorPromise :=
  λ h, match sp with
       | Some l =>
           match h !! l with
           | Some (MkBlock _ (Some P)) => (Returns P, h)
           | _ => (Undefined, h)
           end
       | None => (Undefined, h)
       end.

(** Write back the promise a [TSharedPtr] points to. *)
Definition assign (sp : option loc) (P : TGeneratorPromise) : Call unit :=
  λ h, match sp with
       | Some l =>
           match h !! l with
           | Some (MkBlock n (Some _)) => (Returns tt, <[l := MkBlock n (Some P)]> h)
           | _ => (Undefined, h)
           end
       | None => (Undefined, h)
       end.

(** [Promise->Resume()] *)
Definition call_Resume (sp : option loc) : Call bool :=
  P ← deref sp;
  let '(r, P') := Promise_Resume P in
  assign sp P';;
  mret r.

(** [Promise->ThrowIfException()]:
    [if (Exception) std::rethrow_exception(Exception);] *)
Definition ThrowIfException (sp : option loc) : Call unit :=
  P ← deref sp;
  match Exception P with
  | Some e => throw e
  | None => mret tt
  end.

(** *** [TGenerator] *)

(** The call of a generator function: the coroutine is created suspended at
    [initial_suspend], and [get_return_object] wraps the promise in the first
    shared pointer (the private constructor of [TGenerator]). *)
Definition coroutine_call (f0 : Frame) : Call TGenerator :=
  h ← get;
  let l := fresh (dom h) in
  put (<[l := MkBlock 1 (Some (initial_promise f0))]> h);;
  mret (MkGenerator (Some l)).

(** Copy constructor and destructor of [TGenerator] (those of its
    [TSharedPtr] member). *)
Definition TGenerator_copy (g : TGenerator) : Call TGenerator :=
  h ← get;
  match Promise g with
  | Some l => put (AddSharedReference l h);; mret g
  | None => mret g
  end.

Definition TGenerator_dtor (g : TGenerator) : Call unit :=
  TSharedPtr_dtor (Promise g).

(** [HasValue]: [return Promise->CurrentValue != nullptr;] *)
Definition HasValue (g : TGenerator) : Call bool :=
  P ← deref (Promise g);
  mret (match CurrentValuePtr P with Some _ => true | None => false end).

(** [GetCurrentValuePtr]: [return Promise->CurrentValue;] *)
Definition GetCurrentValuePtr (g : TGenerator) : Call (option Ptr) :=
  P ← deref (Promise g);
  mret (CurrentValuePtr P).

(** [GetCurrentValue]:
    [checkf(Promise && Promise->CurrentValuePtr, ...);
     return *Promise->CurrentValuePtr;]
    As for [operator*] below, the call stands for the read through the
    reference returned. *)
Definition GetCurrentValue (g : TGenerator) : Call T :=
  match Promise g with
  | None => checkf false "Attempted to access an empty generator";; undefined
  | Some _ =>
      P ← deref (Promise g);
      match CurrentValuePtr P with
      | None => checkf false "Attempted to access an empty generator";; undefined
      | Some p => mret (load (frame P) p)
      end
  end.

(** [IsDone]: [return Promise->IsDone();] *)
Definition IsDone (g : TGenerator) : Call bool :=
  P ← deref (Promise g);
  mret (Promise_IsDone P).

(** [TGenerator<T>::Resume]:
    [const bool Result = Promise->Resume();
     Promise->ThrowIfException();
     return Result;] *)
Definition Resume (g : TGenerator) : Call bool :=
  Result ← call_Resume (Promise g);
  ThrowIfException (Promise g);;
  mret Result.

(** [TGenerator<T>::begin]:
    [if (!HasValue()) Promise->Resume();
     Promise->ThrowIfException();
     return iterator( *this );] *)
Definition begin (g : TGenerator) : Call TGeneratorIterator :=
  hv ← HasValue g;
  (if negb hv then call_Resume (Promise g);; mret tt else mret tt);;
  ThrowIfException (Promise g);;
  mret (MkWeak (Promise g)).

(** [static iterator end() noexcept { return {}; }] *)
Definition end_ : TGeneratorIterator := MkWeak None.

(** [iterator CreateIterator() noexcept { return begin(); }] *)
Definition CreateIterator (g : TGenerator) : Call TGeneratorIterator :=
  noexcept (begin g).

(** [GetWeakHandle]: [return TWeakGeneratorHandle<T>{*this};] *)
Definition GetWeakHandle (g : TGenerator) : TWeakGeneratorHandle :=
  MkWeak (Promise g).

(** *** [TGeneratorIterator] *)

Definition this_ {This} : Method This This := λ s, (Returns s.1, s).
Definition set_this {This} (x : This) : Method This unit := λ s, (Returns tt, (x, s.2)).

(** [operator++()]:
    [checkf(this->Promise.IsValid(), ...);
     if (auto StrongPromise = this->Promise.Pin(); !StrongPromise->Resume())
     {
         this->Promise = nullptr;
         StrongPromise->ThrowIfException();
     }
     return *this;] *)
Definition operator_inc : Method TGeneratorIterator TGeneratorIterator :=
  this ← this_;
  valid ← on_heap (h ← get; mret (IsValid (WeakPromise this) h));
  checkf valid "Attempted to advance an invalid iterator";;
  StrongPromise ← on_heap (TWeakPtr_Pin (WeakPromise this));
  scoped
    (r ← on_heap (call_Resume StrongPromise);
     if negb r
     then set_this (MkWeak None);;
          on_heap (ThrowIfException StrongPromise)
     else mret tt)
    (on_heap (TSharedPtr_dtor StrongPromise));;
  this_.

(** [void operator++(int) { operator++(); }] *)
Definition operator_inc_int : Method TGeneratorIterator unit :=
  operator_inc;; mret tt.

(** [operator*]:
    [checkf(this->Promise.IsValid(), ...);
     return *this->Promise.Pin()->CurrentValue;]
    The call stands for the read the consumer makes through the reference
    returned, which it makes at once. *)
Definition operator_star (it : TGeneratorIterator) : Call T :=
  h ← get;
  checkf (IsValid (WeakPromise it) h) "Attempted to dereference an invalid iterator";;
  sp ← TWeakPtr_Pin (WeakPromise it);
  scoped
    (P ← deref sp;
     match CurrentValuePtr P with
     | Some p => mret (load (frame P) p)
     | None => undefined
     end)
    (TSharedPtr_dtor sp).

(** [operator==]: [return this->Promise == Other.Promise;] *)
Definition operator_eq (this Other : TGeneratorIterator) (h : Heap) : bool :=
  TWeakPtr_eq (WeakPromise this) (WeakPromise Other) h.

(** [operator!=]: [return this->Promise != Other.Promise;] *)
Definition operator_ne (this Other : TGeneratorIterator) (h : Heap) : bool :=
  TWeakPtr_ne (WeakPromise this) (WeakPromise Other) h.

(** [explicit operator bool]: [return this->Promise.IsValid();] *)
Definition operator_bool (this : TGeneratorIterator) (h : Heap) : bool :=
  IsValid (WeakPromise this) h.

(** A heap as the shared pointers keep it: the object of a control block is
    there as long as the block has owners. *)
Definition block_wf (b : ControlBlock) : Prop :=
  0 < SharedReferenceCount b → is_Some (Object b).

Definition heap_wf (h : Heap) : Prop := map_Forall (λ _, block_wf) h.

(** The heap once [k] owners of the state of [g] have been destroyed. *)
Definition drop_handles (k : nat) (g : TGenerator) (h : Heap) : Heap :=
  Nat.iter k (λ h, (TGenerator_dtor g h).2) h.

(** *** The two ways of running a generator *)

(** What a consumer has observed when its loop is over: the values it has
    read, in order, and how the loop ended. *)
Record Observed : Type := MkObserved {
  values : list T;
  ending : Outcome Exn unit;
  heap_after : Heap
}.

Definition observe (v : T) (o : Observed) : Observed :=
  MkObserved (v :: values o) (ending o) (heap_after o).

Definition stop {A} (o : Outcome Exn A) (h : Heap) : Observed :=
  MkObserved []
    match o with
    | Returns _ => Returns tt
    | Throws e => Throws e
    | CheckFailed msg => CheckFailed msg
    | Terminated => Terminated
    | Undefined => Undefined
    end h.

(** [for (...; i != Values.end(); i++) { use( *i ); }] from iterator [it] on;
    [None] when [fuel] turns of the loop were not enough. *)
Fixpoint for_loop (fuel : nat) (it : TGeneratorIterator) (h : Heap) : option Observed :=
  match fuel with
  | 0 => None
  | S fuel =>
      if operator_ne it end_ h
      then match operator_star it h with
           | (Returns v, h1) =>
               match operator_inc_int (it, h1) with
               | (Returns _, (it', h2)) => observe v <$> for_loop fuel it' h2
               | (o, (_, h2)) => Some (observe v (stop o h2))
               end
           | (o, h1) => Some (stop o h1)
           end
      else Some (stop (Returns tt) h)
  end.

(** [for (auto i = Values.begin(); i != Values.end(); i++) { use( *i ); }],
    and the range-based [for (const auto& i : Values)]. *)
Definition iterate (fuel : nat) (g : TGenerator) (h : Heap) : option Observed :=
  match begin g h with
  | (Returns it, h1) => for_loop fuel it h1
  | (o, h1) => Some (stop o h1)
  end.

(** [while (Values.Resume()) { use(Values.GetCurrentValue()); }] *)
Fixpoint while_Resume (fuel : nat) (g : TGenerator) (h : Heap) : option Observed :=
  match fuel with
  | 0 => None
  | S fuel =>
      match Resume g h with
      | (Returns true, h1) =>
          match GetCurrentValue g h1 with
          | (Returns v, h2) => observe v <$> while_Resume fuel g h2
          | (o, h2) => Some (stop o h2)
          end
      | (o, h1) => Some (stop o h1)
      end
  end.

(** [n] calls of [Resume()] in a row, results of the calls in order. *)
Fixpoint Resume_times (n : nat) (g : TGenerator) (h : Heap) : list (Outcome Exn bool) * Heap :=
  match n with
  | 0 => ([], h)
  | S n => let '(o, h1) := Resume g h in
           let '(os, h2) := Resume_times n g h1 in (o :: os, h2)
  end.

(** *** Runs of a body *)

(** [Runs f ys fin f']: from frame [f] on, the body yields at the addresses
    and frames [ys], in this order, and then finishes in frame [f'], by
    returning ([fin = None]) or by throwing [e] ([fin = Some e]). *)
Inductive Runs : Frame → list (Ptr * Frame) → option Exn → Frame → Prop :=
| Runs_return f f' :
    body f = CoReturn f' → Runs f [] None f'
| Runs_throw f e f' :
    body f = CoThrow e f' → Runs f [] (Some e) f'
| Runs_yield f p f1 ys fin f' :
    body f = CoYield p f1 → Runs f1 ys fin f' → Runs f ((p, f1) :: ys) fin f'.

(** The same, computed: [None] when the body yields more than [fuel] - 1
    times. *)
Fixpoint run (fuel : nat) (f : Frame) : option (list (Ptr * Frame) * option Exn * Frame) :=
  match fuel with
  | 0 => None
  | S fuel =>
      match body f with
      | CoReturn f' => Some ([], None, f')
      | CoThrow e f' => Some ([], Some e, f')
      | CoYield p f1 =>
          match run fuel f1 with
          | Some (ys, fin, f') => Some ((p, f1) :: ys, fin, f')
          | None => None
          end
      end
  end.

(** The value the consumer can read at a yield: the object at the yielded
    address while the body is suspended there. *)
Definition yielded (y : Ptr * Frame) : T := load y.2 y.1.

(** The promise [P] once its body has run as in [Runs (frame P) ys fin f']:
    the address is the one of the last yield, the exception the one thrown,
    and the body has been entered once per yield and once more to finish. *)
Definition finished (P : TGeneratorPromise) (ys : list (Ptr * Frame))
    (fin : option Exn) (f' : Frame) : TGeneratorPromise :=
  MkPromise
    (match last ys with Some y => Some y.1 | None => CurrentValuePtr P end)
    (match fin with Some e => Some e | None => Exception P end)
    f' true (Resumptions P + S (length ys)).

(** The promise after the priming of [begin()]: resumed unless a value is
    held. *)
Definition primed (P : TGeneratorPromise) : TGeneratorPromise :=
  match CurrentValuePtr P with
  | Some _ => P
  | None => (Promise_Resume P).2
  end.

(** What the call of [Resume()] that finishes a run gives. *)
Definition last_Resume (fin : option Exn) : Outcome Exn bool :=
  match fin with
  | Some e => Throws e
  | None => Returns false
  end.

(** [operator->]: [return std::addressof(operator*());], the address the
    reference of [operator*] is made from. *)
Definition operator_arrow (it : TGeneratorIterator) : Call Ptr :=
  h ← get;
  checkf (IsValid (WeakPromise it) h) "Attempted to dereference an invalid iterator";;
  sp ← TWeakPtr_Pin (WeakPromise it);
  scoped
    (P ← deref sp;
     match CurrentValuePtr P with
     | Some p => mret p
     | None => undefined
     end)
    (TSharedPtr_dtor sp).

(** How a loop over a run that finishes with [fin] ends. *)
Definition ending_of (fin : option Exn) : Outcome Exn unit :=
  match fin with
  | Some e => Throws e
  | None => Returns tt
  end.

End Generator.

Abbreviation loc := nat (only parsing).
Abbreviation Heap := (gmap loc ControlBlock) (only parsing).
Abbreviation TGeneratorIterator := TWeakGeneratorHandle (only parsing).

(** ** Concrete generator bodies *)

(** *** The generator of the documentation

    [TGenerator<int> Range(const int Low, const int High)
     { for (int i = Low; i < High; i++) co_yield i; }]

    [co_yield i] yields the address of the loop variable [i], which lives in
    the coroutine frame.  [i < High] holds before every [i++], so the
    increment never leaves the range of [int]. *)
Module Range.

Inductive Point : Type :=
| AtInitialSuspend        (* created, not started *)
| AtYield                 (* suspended in [co_yield i] *)
| AtFinalSuspend.         (* the loop is over *)

Record Frame : Type := MkFrame {
  Low : Z;
  High : Z;
  i : Z;
  point : Point
}.

(** The only address yielded: [&i]. *)
Inductive Ptr : Type := addr_i.

Definition load (f : Frame) (p : Ptr) : Z :=
  match p with addr_i => i f end.

(** The loop from its test on, [i] being set. *)
Definition loop_test (f : Frame) : @Suspension Empty_set Ptr Frame :=
  if bool_decide (i f < High f)%Z
  then CoYield addr_i (MkFrame (Low f) (High f) (i f) AtYield)
  else CoReturn (MkFrame (Low f) (High f) (i f) AtFinalSuspend).

Definition body (f : Frame) : @Suspension Empty_set Ptr Frame :=
  match point f with
  | AtInitialSuspend => loop_test (MkFrame (Low f) (High f) (Low f) (point f))
  | AtYield => loop_test (MkFrame (Low f) (High f) (i f + 1) (point f))
  | AtFinalSuspend => CoReturn f
  end.

(** The values of [int], the type of [Low], [High] and [i]: 32 bits, as on
    the platforms of Unreal Engine. *)
Definition fits_int (z : Z) : Prop := (-2147483648 ≤ z ≤ 2147483647)%Z.

(** The suspensions of [Range(Low, High)] in [co_yield i], one for each [i]
    from [Low] to [High - 1]. *)
Definition suspensions (Low High : Z) : list (Ptr * Frame) :=
  (λ i, (addr_i, MkFrame Low High i AtYield)) <$> seqZ Low (High - Low).

(** The frame of a call [Range(Low, High)]; [i] is not initialised yet. *)
Definition call (Low High : Z) : Frame := MkFrame Low High 0 AtInitialSuspend.

(** [auto Values = Range(Low, High);] in a program that has no other
    generator: the heap, and the handle [Values]. *)
Definition heap (Low High : Z) : gmap nat (@ControlBlock Empty_set Ptr Frame) :=
  (coroutine_call (call Low High) ∅).2.

Definition Values : TGenerator := MkGenerator (Some 0).

End Range.

(** *** Straight-line bodies

    [{ co_yield v1; ...; co_yield vn; }], possibly with a [throw e;] in it.
    Each [co_yield v] yields the address of the temporary that holds [v]; the
    temporaries share one slot of the frame. *)
Module Script.

Inductive Stmt : Type :=
| co_yield (v : Z)
| throw_ (e : string).

Record Frame : Type := MkFrame {
  rest : list Stmt;       (* what is left to run *)
  temporary : Z           (* the slot of the yielded temporary *)
}.

Inductive Ptr : Type := addr_temporary.

Definition load (f : Frame) (p : Ptr) : Z :=
  match p with addr_temporary => temporary f end.

Definition body (f : Frame) : @Suspension string Ptr Frame :=
  match rest f with
  | [] => CoReturn f
  | co_yield v :: k => CoYield addr_temporary (MkFrame k v)
  | throw_ e :: _ => CoThrow e (MkFrame [] (temporary f))
  end.

Definition call (stmts : list Stmt) : Frame := MkFrame stmts 0.

(** The heap after the call of such a generator in a program that has no
    other, and the handle returned. *)
Definition heap (stmts : list Stmt) : gmap nat (@ControlBlock string Ptr Frame) :=
  (coroutine_call (call stmts) ∅).2.

Definition Values : TGenerator := MkGenerator (Some 0).

End Script.

Section Properties.

Context {T Exn Ptr Frame : Type}.
Context (body : Frame → @Suspension Exn Ptr Frame) (load : Frame → Ptr → T).

Implicit Types (h : gmap nat (@ControlBlock Exn Ptr Frame)).
Implicit Types (P : @TGeneratorPromise Exn Ptr Frame).
Implicit Types (l n : nat).

Ltac unfold_call :=
  repeat (progress (
    unfold mbind, M_bind, mret, M_ret, bind, ret, throw, undefined, get, put,
      checkf, on_heap, this_, set_this, scoped, noexcept;
    cbn [fst snd Promise WeakPromise negb])).

Lemma IsValid_alive l n o h :
  h !! l = Some (MkBlock (S n) o) → IsValid (Some l) h = true.
Proof.
  intros Hl. unfold IsValid. rewrite Hl. cbn [SharedReferenceCount].
  case_bool_decide; [done | lia].
Qed.

Lemma IsValid_destroyed l o h :
  h !! l = Some (MkBlock 0 o) → IsValid (Some l) h = false.
Proof.
  intros Hl. unfold IsValid. rewrite Hl. cbn [SharedReferenceCount].
  case_bool_decide; [lia | done].
Qed.

Lemma TWeakPtr_Pin_alive l n o h :
  h !! l = Some (MkBlock (S n) o) →
  TWeakPtr_Pin (Some l) h = (Returns (Some l), <[l := MkBlock (S (S n)) o]> h).
Proof.
  intros Hl. unfold TWeakPtr_Pin. rewrite (IsValid_alive l n o h Hl).
  unfold AddSharedReference. by rewrite Hl.
Qed.

Lemma Release_after_Pin l n (o : option (@TGeneratorPromise Exn Ptr Frame)) h :
  ReleaseSharedReference l (<[l := MkBlock (S (S n)) o]> h) = <[l := MkBlock (S n) o]> h.
Proof.
  unfold ReleaseSharedReference. rewrite lookup_insert_eq. simpl.
  by rewrite insert_insert_eq.
Qed.

Lemma deref_alive l n P h :
  h !! l = Some (MkBlock n (Some P)) → deref (Some l) h = (Returns P, h).
Proof. intros Hl. unfold deref. by rewrite Hl. Qed.

Lemma assign_alive l n P P' h :
  h !! l = Some (MkBlock n (Some P)) →
  assign (Some l) P' h = (Returns tt, <[l := MkBlock n (Some P')]> h).
Proof. intros Hl. unfold assign. by rewrite Hl. Qed.

Lemma call_Resume_alive l n P h :
  h !! l = Some (MkBlock n (Some P)) →
  call_Resume body (Some l) h =
    (Returns (Promise_Resume body P).1,
     <[l := MkBlock n (Some (Promise_Resume body P).2)]> h).
Proof.
  intros Hl. unfold call_Resume. unfold_call.
  rewrite (deref_alive l n P h Hl).
  destruct (Promise_Resume body P) as [r P'] eqn:HR. unfold_call.
  by rewrite (assign_alive l n P P' h Hl).
Qed.

Lemma ThrowIfException_alive l n P h :
  h !! l = Some (MkBlock n (Some P)) →
  ThrowIfException (Some l) h =
    (match Exception P with Some e => Throws e | None => Returns tt end, h).
Proof.
  intros Hl. unfold ThrowIfException. unfold_call.
  rewrite (deref_alive l n P h Hl). by destruct (Exception P).
Qed.

(** *** One call of [TGeneratorPromise::Resume], by cases *)

Lemma Promise_Resume_done P :
  done P = true → Promise_Resume body P = (false, P).
Proof. intros Hd. unfold Promise_Resume. rewrite Hd. simpl. by rewrite Hd. Qed.

Lemma Promise_Resume_yield P p f :
  done P = false → body (frame P) = CoYield p f →
  Promise_Resume body P =
    (true, MkPromise (Some p) (Exception P) f false (S (Resumptions P))).
Proof.
  intros Hd Hb. unfold Promise_Resume, handle_resume. rewrite Hd. simpl.
  by rewrite Hb.
Qed.

Lemma Promise_Resume_return P f :
  done P = false → body (frame P) = CoReturn f →
  Promise_Resume body P =
    (false, MkPromise (CurrentValuePtr P) (Exception P) f true (S (Resumptions P))).
Proof.
  intros Hd Hb. unfold Promise_Resume, handle_resume. rewrite Hd. simpl.
  by rewrite Hb.
Qed.

Lemma Promise_Resume_throw P e f :
  done P = false → body (frame P) = CoThrow e f →
  Promise_Resume body P =
    (false, MkPromise (CurrentValuePtr P) (Some e) f true (S (Resumptions P))).
Proof.
  intros Hd Hb. unfold Promise_Resume, handle_resume. rewrite Hd. simpl.
  by rewrite Hb.
Qed.

(** The result of [Promise::Resume] is [!Handle.done()] of the new state. *)
Lemma Promise_Resume_result P :
  (Promise_Resume body P).1 = negb (done (Promise_Resume body P).2).
Proof. done. Qed.

(** *** The members of [TGenerator] on a state that is alive *)

Lemma HasValue_alive l n P h :
  h !! l = Some (MkBlock n (Some P)) →
  HasValue (MkGenerator (Some l)) h =
    (Returns (match CurrentValuePtr P with Some _ => true | None => false end), h).
Proof.
  intros Hl. unfold HasValue. unfold_call.
  by rewrite (deref_alive l n P h Hl).
Qed.

Lemma IsDone_alive l n P h :
  h !! l = Some (MkBlock n (Some P)) →
  IsDone (MkGenerator (Some l)) h = (Returns (done P), h).
Proof.
  intros Hl. unfold IsDone. unfold_call.
  by rewrite (deref_alive l n P h Hl).
Qed.

Lemma GetCurrentValue_alive l n P p h :
  h !! l = Some (MkBlock n (Some P)) → CurrentValuePtr P = Some p →
  GetCurrentValue load (MkGenerator (Some l)) h = (Returns (load (frame P) p), h).
Proof.
  intros Hl Hp. unfold GetCurrentValue. unfold_call.
  rewrite (deref_alive l n P h Hl). by rewrite Hp.
Qed.

Lemma Resume_alive l n P h :
  h !! l = Some (MkBlock n (Some P)) →
  Resume body (MkGenerator (Some l)) h =
    (match Exception (Promise_Resume body P).2 with
     | Some e => Throws e
     | None => Returns (Promise_Resume body P).1
     end,
     <[l := MkBlock n (Some (Promise_Resume body P).2)]> h).
Proof.
  intros Hl. unfold Resume. unfold_call.
  rewrite (call_Resume_alive l n P h Hl).
  rewrite (ThrowIfException_alive l n (Promise_Resume body P).2);
    [| by rewrite lookup_insert_eq].
  by destruct (Exception _).
Qed.

Lemma begin_alive l n P h :
  h !! l = Some (MkBlock n (Some P)) →
  begin body (MkGenerator (Some l)) h =
    (match Exception (primed body P) with
     | Some e => Throws e
     | None => Returns (MkWeak (Some l))
     end,
     <[l := MkBlock n (Some (primed body P))]> h).
Proof.
  intros Hl. unfold begin, primed. unfold_call.
  rewrite (HasValue_alive l n P h Hl). unfold_call.
  destruct (CurrentValuePtr P) as [p|]; unfold_call.
  - rewrite (ThrowIfException_alive l n P h Hl).
    rewrite (insert_id h l _ Hl). by destruct (Exception P).
  - rewrite (call_Resume_alive l n P h Hl).
    rewrite (ThrowIfException_alive l n (Promise_Resume body P).2);
      [| by rewrite lookup_insert_eq].
    by destruct (Exception _).
Qed.

(** *** The members of [TGeneratorIterator] on a state that is alive *)

Lemma operator_inc_alive l n P h :
  h !! l = Some (MkBlock (S n) (Some P)) →
  operator_inc body (MkWeak (Some l), h) =
    if (Promise_Resume body P).1
    then (Returns (MkWeak (Some l)),
          (MkWeak (Some l), <[l := MkBlock (S n) (Some (Promise_Resume body P).2)]> h))
    else (match Exception (Promise_Resume body P).2 with
          | Some e => Throws e
          | None => Returns end_
          end,
          (end_, <[l := MkBlock (S n) (Some (Promise_Resume body P).2)]> h)).
Proof.
  intros Hl. set (r := (Promise_Resume body P).1). set (P' := (Promise_Resume body P).2).
  unfold operator_inc. unfold_call.
  rewrite (IsValid_alive l n _ h Hl). unfold_call.
  rewrite (TWeakPtr_Pin_alive l n _ h Hl). unfold_call.
  rewrite (call_Resume_alive l (S (S n)) P); [| by rewrite lookup_insert_eq].
  fold r P'. rewrite insert_insert_eq.
  destruct r; unfold_call.
  - unfold TSharedPtr_dtor. by rewrite Release_after_Pin.
  - rewrite (ThrowIfException_alive l (S (S n)) P'); [| by rewrite lookup_insert_eq].
    unfold TSharedPtr_dtor.
    destruct (Exception P'); unfold_call; by rewrite Release_after_Pin.
Qed.

Lemma operator_star_alive l n P p h :
  h !! l = Some (MkBlock (S n) (Some P)) → CurrentValuePtr P = Some p →
  operator_star load (MkWeak (Some l)) h = (Returns (load (frame P) p), h).
Proof.
  intros Hl Hp. unfold operator_star. unfold_call.
  rewrite (IsValid_alive l n _ h Hl). unfold_call.
  rewrite (TWeakPtr_Pin_alive l n _ h Hl). unfold_call.
  rewrite (deref_alive l (S (S n)) P); [| by rewrite lookup_insert_eq].
  rewrite Hp. unfold_call. unfold TSharedPtr_dtor. rewrite Release_after_Pin.
  by rewrite (insert_id h l _ Hl).
Qed.

Lemma operator_star_null_value l n P h :
  h !! l = Some (MkBlock (S n) (Some P)) → CurrentValuePtr P = None →
  (operator_star load (MkWeak (Some l)) h).1 = Undefined.
Proof.
  intros Hl Hp. unfold operator_star. unfold_call.
  rewrite (IsValid_alive l n _ h Hl). unfold_call.
  rewrite (TWeakPtr_Pin_alive l n _ h Hl). unfold_call.
  rewrite (deref_alive l (S (S n)) P); [| by rewrite lookup_insert_eq].
  by rewrite Hp.
Qed.

Lemma operator_ne_end_alive l n o h :
  h !! l = Some (MkBlock (S n) o) →
  operator_ne (MkWeak (Some l)) end_ h = true.
Proof.
  intros Hl. unfold operator_ne, TWeakPtr_ne, PinGet, end_. cbn [WeakPromise].
  rewrite (IsValid_alive l n o h Hl). by apply bool_decide_eq_true_2.
Qed.

Lemma operator_ne_end_end h : operator_ne end_ end_ h = false.
Proof. done. Qed.

(** *** Runs of the body seen through the loops *)

Lemma finished_yield P p e f1 ys fin f' :
  Exception P = e →
  finished (MkPromise (Some p) e f1 false (S (Resumptions P))) ys fin f' =
  finished P ((p, f1) :: ys) fin f'.
Proof.
  intros <-. unfold finished. cbn [CurrentValuePtr Exception Resumptions length].
  f_equal; try lia.
  destruct ys as [|y ys]; [done |].
  rewrite last_cons_cons.
  destruct (last (y :: ys)) eqn:E; [done |].
  by apply last_None in E.
Qed.

(** The iterator loop entered with a value held: it reads that value, then
    the values of the rest of the run, and ends as the run does. *)
Lemma for_loop_Runs f ys fin f' :
  Runs body f ys fin f' →
  ∀ l n P p h fuel,
    h !! l = Some (MkBlock (S n) (Some P)) →
    frame P = f → done P = false →
    CurrentValuePtr P = Some p → Exception P = None →
    length ys + 1 < fuel →
    for_loop body load fuel (MkWeak (Some l)) h =
      Some (MkObserved (load f p :: (yielded load <$> ys)) (ending_of fin)
              (<[l := MkBlock (S n) (Some (finished P ys fin f'))]> h)).
Proof.
  induction 1 as [f f' Hb | f e f' Hb | f p1 f1 ys fin f' Hb HR IH];
    intros l n P p h fuel Hl Hf Hd Hp He Hfuel;
    (destruct fuel as [|fuel]; [lia |]); cbn [for_loop];
    rewrite (operator_ne_end_alive l n _ h Hl);
    rewrite (operator_star_alive l n P p h Hl Hp);
    unfold operator_inc_int; unfold_call;
    rewrite (operator_inc_alive l n P h Hl); subst f.
  - rewrite (Promise_Resume_return P f' Hd Hb). cbn [fst snd Exception].
    rewrite He. destruct fuel as [|fuel]; [simpl in Hfuel; lia |].
    cbn [for_loop]. rewrite operator_ne_end_end.
    unfold finished. cbn [last length]. rewrite He.
    by replace (Resumptions P + 1) with (S (Resumptions P)) by lia.
  - rewrite (Promise_Resume_throw P e f' Hd Hb). cbn [fst snd Exception].
    unfold finished. cbn [last length].
    by replace (Resumptions P + 1) with (S (Resumptions P)) by lia.
  - rewrite (Promise_Resume_yield P p1 f1 Hd Hb). cbn [fst snd].
    rewrite (IH l n (MkPromise (Some p1) (Exception P) f1 false (S (Resumptions P)))
               p1 (<[l := MkBlock (S n) (Some (MkPromise (Some p1) (Exception P) f1
                                                   false (S (Resumptions P))))]> h) fuel);
      [| by rewrite lookup_insert_eq | done | done | done | done | simpl in Hfuel; lia].
    rewrite insert_insert_eq. by rewrite (finished_yield P).
Qed.

(** [begin()] to [end()] over a run with at least one yield, from a state
    that holds no value yet. *)
Lemma iterate_Runs_nonempty f y ys fin f' l n P h fuel :
  Runs body f (y :: ys) fin f' →
  h !! l = Some (MkBlock (S n) (Some P)) →
  frame P = f → done P = false →
  CurrentValuePtr P = None → Exception P = None →
  length ys + 1 < fuel →
  iterate body load fuel (MkGenerator (Some l)) h =
    Some (MkObserved (yielded load <$> y :: ys) (ending_of fin)
            (<[l := MkBlock (S n) (Some (finished P (y :: ys) fin f'))]> h)).
Proof.
  intros HR Hl Hf Hd Hp He Hfuel.
  inversion HR as [| | f0 p f1 ys0 fin0 f0' Hb HR']; subst.
  unfold iterate. rewrite (begin_alive l (S n) P h Hl).
  unfold primed. rewrite Hp.
  rewrite (Promise_Resume_yield P p f1 Hd Hb). cbn [snd Exception]. rewrite He.
  rewrite (for_loop_Runs f1 ys fin f' HR' l n
             (MkPromise (Some p) None f1 false (S (Resumptions P))) p);
    [| by rewrite lookup_insert_eq | done | done | done | done | done].
  rewrite insert_insert_eq. by rewrite (finished_yield P).
Qed.

(** [begin()] on a body that throws before its first yield. *)
Lemma iterate_throws_at_begin f e f' l n P h fuel :
  Runs body f [] (Some e) f' →
  h !! l = Some (MkBlock n (Some P)) →
  frame P = f → done P = false → CurrentValuePtr P = None →
  iterate body load fuel (MkGenerator (Some l)) h =
    Some (MkObserved [] (Throws e)
            (<[l := MkBlock n (Some (finished P [] (Some e) f'))]> h)).
Proof.
  intros HR Hl Hf Hd Hp.
  inversion HR as [| f0 e0 f0' Hb |]; subst.
  unfold iterate. rewrite (begin_alive l n P h Hl).
  unfold primed. rewrite Hp.
  rewrite (Promise_Resume_throw P e f' Hd Hb). cbn [snd Exception].
  unfold finished, stop. cbn [last length]. rewrite Hp.
  by replace (Resumptions P + 1) with (S (Resumptions P)) by lia.
Qed.

(** [begin()] on a body that returns before its first yield: the iterator
    refers to the finished state, is not [end()], and the first turn of the
    loop reads through the null [CurrentValuePtr]. *)
Lemma begin_Runs_empty f f' l n P h :
  Runs body f [] None f' →
  h !! l = Some (MkBlock (S n) (Some P)) →
  frame P = f → done P = false →
  CurrentValuePtr P = None → Exception P = None →
  ∃ h', begin body (MkGenerator (Some l)) h = (Returns (MkWeak (Some l)), h')
        ∧ operator_eq (MkWeak (Some l)) end_ h' = false
        ∧ operator_ne (MkWeak (Some l)) end_ h' = true
        ∧ (operator_star load (MkWeak (Some l)) h').1 = Undefined.
Proof.
  intros HR Hl Hf Hd Hp He.
  inversion HR as [f0 f0' Hb | |]; subst.
  rewrite (begin_alive l (S n) P h Hl). unfold primed. rewrite Hp.
  rewrite (Promise_Resume_return P f' Hd Hb). cbn [snd Exception]. rewrite He.
  eexists. split; [done |].
  assert (Hl' : (<[l := MkBlock (S n) (Some (MkPromise (CurrentValuePtr P) None f' true
                                               (S (Resumptions P))))]> h) !! l
                = Some (MkBlock (S n) (Some (MkPromise (CurrentValuePtr P) None f' true
                                               (S (Resumptions P))))))
    by by rewrite lookup_insert_eq.
  split; [| split].
  - unfold operator_eq, TWeakPtr_eq, PinGet, end_. cbn [WeakPromise].
    rewrite (IsValid_alive _ _ _ _ Hl'). by apply bool_decide_eq_false_2.
  - by rewrite (operator_ne_end_alive _ _ _ _ Hl').
  - by rewrite (operator_star_null_value _ _ _ _ Hl').
Qed.

Lemma iterate_Runs_empty f f' l n P h fuel :
  Runs body f [] None f' →
  h !! l = Some (MkBlock (S n) (Some P)) →
  frame P = f → done P = false →
  CurrentValuePtr P = None → Exception P = None →
  ∃ h', iterate body load (S fuel) (MkGenerator (Some l)) h =
          Some (MkObserved [] Undefined h').
Proof.
  intros HR Hl Hf Hd Hp He.
  destruct (begin_Runs_empty f f' l n P h HR Hl Hf Hd Hp He)
    as (h' & Hbegin & _ & Hne & Hstar).
  unfold iterate. rewrite Hbegin. cbn [for_loop]. rewrite Hne.
  destruct (operator_star load (MkWeak (Some l)) h') as [o h''].
  simpl in Hstar. subst o. by eexists.
Qed.

(** *** Runs of the body seen through [Resume()] *)

Lemma Resume_times_done l n P h k :
  h !! l = Some (MkBlock n (Some P)) → done P = true →
  Resume_times body k (MkGenerator (Some l)) h =
    (replicate k (last_Resume (Exception P)), h).
Proof.
  intros Hl Hd. induction k as [|k IH]; [done |].
  cbn [Resume_times]. rewrite (Resume_alive l n P h Hl).
  rewrite (Promise_Resume_done P Hd). cbn [fst snd].
  rewrite (insert_id h l _ Hl). rewrite IH.
  by destruct (Exception P).
Qed.

Lemma Resume_times_Runs f ys fin f' :
  Runs body f ys fin f' →
  ∀ l n P h,
    h !! l = Some (MkBlock n (Some P)) →
    frame P = f → done P = false → Exception P = None →
    Resume_times body (S (length ys)) (MkGenerator (Some l)) h =
      (replicate (length ys) (Returns true) ++ [last_Resume fin],
       <[l := MkBlock n (Some (finished P ys fin f'))]> h).
Proof.
  induction 1 as [f f' Hb | f e f' Hb | f p1 f1 ys fin f' Hb HR IH];
    intros l n P h Hl Hf Hd He; subst f.
  - cbn [Resume_times length]. rewrite (Resume_alive l n P h Hl).
    rewrite (Promise_Resume_return P f' Hd Hb). cbn [fst snd Exception].
    rewrite He. unfold finished. cbn [last length replicate app last_Resume].
    rewrite He. by replace (Resumptions P + 1) with (S (Resumptions P)) by lia.
  - cbn [Resume_times length]. rewrite (Resume_alive l n P h Hl).
    rewrite (Promise_Resume_throw P e f' Hd Hb). cbn [fst snd Exception].
    unfold finished. cbn [last length replicate app last_Resume].
    by replace (Resumptions P + 1) with (S (Resumptions P)) by lia.
  - cbn [length]. change (Resume_times body (S (S (length ys))) ?g ?h0)
      with (let '(o, h1) := Resume body g h0 in
            let '(os, h2) := Resume_times body (S (length ys)) g h1 in (o :: os, h2)).
    rewrite (Resume_alive l n P h Hl).
    rewrite (Promise_Resume_yield P p1 f1 Hd Hb). cbn [fst snd Exception].
    rewrite He.
    rewrite (IH l n (MkPromise (Some p1) None f1 false (S (Resumptions P))));
      [| by rewrite lookup_insert_eq | done | done | done].
    rewrite insert_insert_eq. by rewrite (finished_yield P).
Qed.

Lemma while_Resume_Runs f ys fin f' :
  Runs body f ys fin f' →
  ∀ l n P h fuel,
    h !! l = Some (MkBlock n (Some P)) →
    frame P = f → done P = false → Exception P = None →
    length ys < fuel →
    while_Resume body load fuel (MkGenerator (Some l)) h =
      Some (MkObserved (yielded load <$> ys) (ending_of fin)
              (<[l := MkBlock n (Some (finished P ys fin f'))]> h)).
Proof.
  induction 1 as [f f' Hb | f e f' Hb | f p1 f1 ys fin f' Hb HR IH];
    intros l n P h fuel Hl Hf Hd He Hfuel; subst f;
    (destruct fuel as [|fuel]; [simpl in Hfuel; lia |]); cbn [while_Resume];
    rewrite (Resume_alive l n P h Hl).
  - rewrite (Promise_Resume_return P f' Hd Hb). cbn [fst snd Exception].
    rewrite He. unfold finished, stop. cbn [last length fmap list_fmap ending_of].
    rewrite He. by replace (Resumptions P + 1) with (S (Resumptions P)) by lia.
  - rewrite (Promise_Resume_throw P e f' Hd Hb). cbn [fst snd Exception].
    unfold finished, stop. cbn [last length fmap list_fmap ending_of].
    by replace (Resumptions P + 1) with (S (Resumptions P)) by lia.
  - rewrite (Promise_Resume_yield P p1 f1 Hd Hb). cbn [fst snd Exception].
    rewrite He.
    rewrite (GetCurrentValue_alive l n
               (MkPromise (Some p1) None f1 false (S (Resumptions P))) p1);
      [| by rewrite lookup_insert_eq | done].
    rewrite (IH l n (MkPromise (Some p1) None f1 false (S (Resumptions P))));
      [| by rewrite lookup_insert_eq | done | done | done | simpl in Hfuel; lia].
    rewrite insert_insert_eq. by rewrite (finished_yield P).
Qed.

(** *** [run] computes the runs *)

Lemma run_Runs fuel : ∀ f ys fin f',
  run body fuel f = Some (ys, fin, f') → Runs body f ys fin f'.
Proof.
  induction fuel as [|fuel IH]; intros f ys fin f' Hrun; [done |].
  cbn [run] in Hrun. destruct (body f) as [p f1 | f1 | e f1] eqn:Hb.
  - destruct (run body fuel f1) as [[[ys1 fin1] f1']|] eqn:Hrun1; [| done].
    injection Hrun as <- <- <-. eapply Runs_yield; [done |]. by apply IH.
  - injection Hrun as <- <- <-. by apply Runs_return.
  - injection Hrun as <- <- <-. by apply Runs_throw.
Qed.

Lemma Runs_run f ys fin f' :
  Runs body f ys fin f' → run body (S (length ys)) f = Some (ys, fin, f').
Proof.
  induction 1 as [f f' Hb | f e f' Hb | f p1 f1 ys fin f' Hb HR IH].
  - cbn [run length]. by rewrite Hb.
  - cbn [run length]. by rewrite Hb.
  - cbn [length]. change (run body (S (S (length ys))) f) with
      (match body f with
       | CoReturn f' => Some ([], None, f')
       | CoThrow e f' => Some ([], Some e, f')
       | CoYield p f1 =>
           match run body (S (length ys)) f1 with
           | Some (ys, fin, f') => Some ((p, f1) :: ys, fin, f')
           | None => None
           end
       end).
    rewrite Hb. by rewrite IH.
Qed.

(** A body runs in one way only. *)
Lemma Runs_deterministic f ys fin f' ys2 fin2 f2 :
  Runs body f ys fin f' → Runs body f ys2 fin2 f2 →
  ys = ys2 ∧ fin = fin2 ∧ f' = f2.
Proof.
  intros H1. revert ys2 fin2 f2.
  induction H1 as [f f' Hb | f e f' Hb | f p1 f1 ys fin f' Hb HR IH];
    intros ys2 fin2 f2 H2; inversion H2; subst; try congruence.
  - assert (f' = f2) by congruence. by subst.
  - assert (e = e0 ∧ f' = f2) as [-> ->] by (split; congruence). done.
  - assert (p1 = p ∧ f1 = f3) as [-> ->] by (split; congruence).
    destruct (IH _ _ _ H0) as (-> & -> & ->). done.
Qed.

(** *** The call of a generator function *)

Lemma coroutine_call_fresh (f0 : Frame) h :
  ∃ l, h !! l = None
       ∧ coroutine_call f0 h =
           (Returns (MkGenerator (Some l)),
            <[l := MkBlock 1 (Some (initial_promise f0))]> h).
Proof.
  exists (fresh (dom h)). split; [| done].
  apply not_elem_of_dom. apply is_fresh.
Qed.

(** *** Reference counts *)

Lemma heap_wf_empty : heap_wf (∅ : gmap nat (@ControlBlock Exn Ptr Frame)).
Proof. apply map_Forall_empty. Qed.

Lemma heap_wf_insert l b h :
  block_wf b → heap_wf h → heap_wf (<[l := b]> h).
Proof. intros Hb Hh. by apply map_Forall_insert_2. Qed.

Lemma heap_wf_coroutine_call (f0 : Frame) h :
  heap_wf h → heap_wf (coroutine_call f0 h).2.
Proof.
  intros Hh. cbn. apply heap_wf_insert; [| done].
  intros _. by eexists.
Qed.

Lemma IsValid_true_owned w h :
  IsValid w h = true →
  ∃ l n o, w = Some l ∧ h !! l = Some (MkBlock (S n) o).
Proof.
  intros Hv. unfold IsValid in Hv.
  destruct w as [l|]; [| done].
  destruct (h !! l) as [[k o]|] eqn:Hl; [| done].
  cbn in Hv. apply bool_decide_eq_true in Hv.
  destruct k as [|n]; [lia |]. by exists l, n, o.
Qed.

Lemma heap_wf_TWeakPtr_Pin w h :
  heap_wf h → heap_wf (TWeakPtr_Pin w h).2.
Proof.
  intros Hh. unfold TWeakPtr_Pin.
  destruct (IsValid w h) eqn:Hv; [| done].
  destruct (IsValid_true_owned w h Hv) as (l & n & o & -> & Hl).
  cbn. unfold AddSharedReference. rewrite Hl.
  apply heap_wf_insert; [| done].
  intros _. cbn. apply (Hh l _ Hl). cbn. lia.
Qed.

Lemma heap_wf_ReleaseSharedReference l h :
  heap_wf h → heap_wf (ReleaseSharedReference l h).
Proof.
  intros Hh. unfold ReleaseSharedReference.
  destruct (h !! l) as [[[|[|k]] o]|] eqn:Hl; try done.
  - apply heap_wf_insert; [| done]. intros Hc. cbn in Hc. lia.
  - apply heap_wf_insert; [| done]. intros _. cbn.
    apply (Hh l _ Hl). cbn. lia.
Qed.

Lemma heap_wf_assign sp P h :
  heap_wf h → heap_wf (assign sp P h).2.
Proof.
  intros Hh. unfold assign. destruct sp as [l|]; [| done].
  destruct (h !! l) as [[k [P0|]]|] eqn:Hl; try done.
  cbn. apply heap_wf_insert; [| done]. intros _. by eexists.
Qed.

(** In such a heap a weak pointer that is valid points to an object. *)
Lemma IsValid_true_alive w h :
  heap_wf h → IsValid w h = true →
  ∃ l n P, w = Some l ∧ h !! l = Some (MkBlock (S n) (Some P)).
Proof.
  intros Hh Hv. unfold IsValid in Hv.
  destruct w as [l|]; [| done].
  destruct (h !! l) as [[k o]|] eqn:Hl; [| done].
  cbn in Hv. apply bool_decide_eq_true in Hv.
  destruct k as [|n]; [lia |].
  destruct (Hh l _ Hl) as [P HP]; [cbn; lia |]. cbn in HP. subst o.
  by exists l, n, P.
Qed.

(** [Promise::Resume] enters the body once, and not at all when the
    coroutine is done. *)
Lemma Promise_Resume_Resumptions P :
  Resumptions (Promise_Resume body P).2 =
    if done P then Resumptions P else S (Resumptions P).
Proof.
  unfold Promise_Resume, handle_resume. cbn [snd].
  destruct (done P); [done |]. cbn.
  by destruct (body (frame P)).
Qed.

Lemma drop_handles_all l n (o : option (@TGeneratorPromise Exn Ptr Frame)) h :
  h !! l = Some (MkBlock (S n) o) →
  drop_handles (S n) (MkGenerator (Some l)) h = <[l := MkBlock 0 None]> h.
Proof.
  unfold drop_handles. revert o h.
  induction n as [|n IH]; intros o h Hl.
  - cbn. unfold ReleaseSharedReference. by rewrite Hl.
  - rewrite Nat.iter_succ_r.
    assert (Hstep : (TGenerator_dtor (MkGenerator (Some l)) h).2
                    = <[l := MkBlock (S n) o]> h).
    { cbn. unfold ReleaseSharedReference. by rewrite Hl. }
    rewrite Hstep. rewrite (IH o); [| by rewrite lookup_insert_eq].
    by rewrite insert_insert_eq.
Qed.

(** ** The properties of the iterator *)

(** C6. [operator++] on an iterator whose state is not alive fails the check
    "Attempted to advance an invalid iterator" and changes nothing.  On an
    iterator whose state is alive it pins the weak pointer and calls
    [Resume()] on the promise once; the pin is released, so the reference
    count is as before.  When that [Resume()] returns true the iterator still
    refers to the state.  When it returns false the iterator is cleared,
    which makes it equal to [end()], and a captured exception is rethrown
    from this call, with the iterator already cleared. *)
Theorem operator_inc_advance (it : TGeneratorIterator) h :
  heap_wf h →
  (IsValid (WeakPromise it) h = false →
   operator_inc body (it, h) =
     (CheckFailed "Attempted to advance an invalid iterator", (it, h)))
  ∧ (IsValid (WeakPromise it) h = true →
     ∃ l n P,
       WeakPromise it = Some l
       ∧ h !! l = Some (MkBlock (S n) (Some P))
       ∧ let r := (Promise_Resume body P).1 in
         let P' := (Promise_Resume body P).2 in
         let h' := <[l := MkBlock (S n) (Some P')]> h in
         (r = true → operator_inc body (it, h) = (Returns it, (it, h')))
         ∧ (r = false →
            operator_inc body (it, h) =
              (match Exception P' with
               | Some e => Throws e
               | None => Returns end_
               end, (end_, h'))
            ∧ operator_eq end_ end_ h' = true)).
Proof.
  intros Hwf. split.
  - intros Hv. unfold operator_inc. unfold_call. by rewrite Hv.
  - intros Hv. destruct it as [w]. cbn [WeakPromise] in *.
    destruct (IsValid_true_alive w h Hwf Hv) as (l & n & P & -> & Hl).
    exists l, n, P. split; [done |]. split; [done |].
    rewrite (operator_inc_alive l n P h Hl).
    destruct (Promise_Resume body P).1; split; intros Hr; done.
Qed.

(** C7. [operator==] on two iterators is true exactly when both refer to no
    state that is alive, or both refer to the same state: the states are
    compared by their address, not by their contents.  [operator!=] is the
    negation of [operator==]. *)
Theorem operator_eq_identity (a b : TGeneratorIterator) h :
  (operator_eq a b h = true ↔
     (IsValid (WeakPromise a) h = false ∧ IsValid (WeakPromise b) h = false)
     ∨ (∃ l, WeakPromise a = Some l ∧ WeakPromise b = Some l))
  ∧ operator_ne a b h = negb (operator_eq a b h).
Proof.
  destruct a as [a], b as [b].
  unfold operator_eq, operator_ne, TWeakPtr_eq, TWeakPtr_ne, PinGet.
  cbn [WeakPromise]. split.
  - rewrite bool_decide_eq_true.
    destruct (IsValid a h) eqn:Ha, (IsValid b h) eqn:Hb.
    + destruct a as [l|]; [| done]. split.
      * intros <-. right. by exists l.
      * intros [[? _] | (l' & ? & ->)]; congruence.
    + destruct a as [l|]; [| done]. split; [done |].
      intros [[? _] | (l' & ? & ->)]; congruence.
    + destruct b as [l|]; [| done]. split; [done |].
      intros [[_ ?] | (l' & -> & ?)]; congruence.
    + split; [by left | done].
  - by rewrite bool_decide_not.
Qed.

(** Two states that are alive at different addresses make different
    iterators, whatever they hold, and were it the same. *)
Corollary operator_eq_not_by_value l1 l2 n1 n2 P h :
  l1 ≠ l2 →
  h !! l1 = Some (MkBlock (S n1) (Some P)) →
  h !! l2 = Some (MkBlock (S n2) (Some P)) →
  operator_eq (MkWeak (Some l1)) (MkWeak (Some l2)) h = false.
Proof.
  intros Hne H1 H2. unfold operator_eq, TWeakPtr_eq, PinGet. cbn [WeakPromise].
  rewrite (IsValid_alive l1 n1 _ h H1), (IsValid_alive l2 n2 _ h H2).
  apply bool_decide_eq_false_2. congruence.
Qed.

(** C10. [operator++(int)] makes the change of state of [operator++()], no
    other, and ends as it does; where [operator++()] returns the iterator,
    [operator++(int)] returns nothing ([void]): no copy of the iterator as
    it was before the advance is made. *)
Theorem operator_inc_int_as_operator_inc (it : TGeneratorIterator) h :
  (operator_inc_int body (it, h)).2 = (operator_inc body (it, h)).2
  ∧ (operator_inc_int body (it, h)).1 =
      match (operator_inc body (it, h)).1 with
      | Returns _ => Returns tt
      | Throws e => Throws e
      | CheckFailed msg => CheckFailed msg
      | Terminated => Terminated
      | Undefined => Undefined
      end.
Proof.
  unfold operator_inc_int. unfold_call.
  by destruct (operator_inc body (it, h)) as [[]].
Qed.

(** ** Finished states and captured failures *)

Lemma primed_done P : done P = true → primed body P = P.
Proof.
  intros Hd. unfold primed. destruct (CurrentValuePtr P); [done |].
  by rewrite (Promise_Resume_done P Hd).
Qed.

Lemma begin_finished l n P h :
  h !! l = Some (MkBlock n (Some P)) → done P = true →
  begin body (MkGenerator (Some l)) h =
    (match Exception P with
     | Some e => Throws e
     | None => Returns (MkWeak (Some l))
     end, h).
Proof.
  intros Hl Hd. rewrite (begin_alive l n P h Hl). rewrite (primed_done P Hd).
  by rewrite (insert_id h l _ Hl).
Qed.

(** C3, as the code has it.  On a state that has finished,
    [TGeneratorPromise::Resume] returns false and changes nothing: the body
    is not entered again ([Resumptions] stays as it is, with the rest of the
    heap).  [TGenerator::Resume] does the same and then returns false when
    the state holds no exception; when the body finished by throwing, the
    exception is still stored and every call rethrows it.  This holds for
    any number [k] of calls in a row. *)
Theorem Resume_after_finish l n P h :
  h !! l = Some (MkBlock n (Some P)) → done P = true →
  call_Resume body (Some l) h = (Returns false, h)
  ∧ ∀ k, Resume_times body k (MkGenerator (Some l)) h =
           (replicate k (last_Resume (Exception P)), h).
Proof.
  intros Hl Hd. split.
  - rewrite (call_Resume_alive l n P h Hl). rewrite (Promise_Resume_done P Hd).
    cbn [fst snd]. by rewrite (insert_id h l _ Hl).
  - intros k. by apply (Resume_times_done l n).
Qed.

(** C1, as the code has it.  Let the body yield [N = length ys] values and
    then throw [e], on a generator that has not been started.  Iterating
    from [begin()] reads exactly the [N] values, in order, and ends with [e]
    thrown, by [begin()] when [N = 0] and by [operator++] otherwise.  With
    [Resume()] called by hand, the first [N] calls return true and call
    [N + 1] throws [e].  In both cases the body has then been entered
    [N + 1] times and the exception stays stored in the promise: every
    later call of [Resume()] throws [e] again, and so does [begin()]. *)
Theorem failure_after_N_values f ys e f' l n P h :
  Runs body f ys (Some e) f' →
  h !! l = Some (MkBlock (S n) (Some P)) →
  frame P = f → done P = false →
  CurrentValuePtr P = None → Exception P = None →
  let g := MkGenerator (Some l) in
  let h' := <[l := MkBlock (S n) (Some (finished P ys (Some e) f'))]> h in
  (∀ fuel, length ys < fuel →
     iterate body load fuel g h =
       Some (MkObserved (yielded load <$> ys) (Throws e) h'))
  ∧ Resume_times body (S (length ys)) g h =
      (replicate (length ys) (Returns true) ++ [Throws e], h')
  ∧ Resumptions (finished P ys (Some e) f') = Resumptions P + S (length ys)
  ∧ (∀ k, Resume_times body k g h' = (replicate k (Throws e), h'))
  ∧ begin body g h' = (Throws e, h').
Proof.
  intros HR Hl Hf Hd Hp He g h'. subst g.
  assert (Hl' : h' !! l = Some (MkBlock (S n) (Some (finished P ys (Some e) f'))))
    by (unfold h'; by rewrite lookup_insert_eq).
  split; [| split; [| split; [| split]]].
  - intros fuel Hfuel. destruct ys as [|y ys].
    + by apply (iterate_throws_at_begin f e f' l (S n) P h fuel).
    + apply (iterate_Runs_nonempty f y ys (Some e) f' l n P h fuel); try done.
      simpl in Hfuel. lia.
  - by apply (Resume_times_Runs f ys (Some e) f' HR l (S n) P h).
  - done.
  - intros k. by rewrite (Resume_times_done l (S n) _ h' k Hl').
  - by rewrite (begin_finished l (S n) _ h' Hl').
Qed.

(** ** What holds around the defects *)

(** From [begin()] to [end()], a body that yields at least once and returns
    is read in full: the values yielded, in the order of the yields, as many
    as there were yields. *)
Lemma iterate_visits_yielded f y ys f' l n P h fuel :
  Runs body f (y :: ys) None f' →
  h !! l = Some (MkBlock (S n) (Some P)) →
  frame P = f → done P = false →
  CurrentValuePtr P = None → Exception P = None →
  length (y :: ys) < fuel →
  ∃ o, iterate body load fuel (MkGenerator (Some l)) h = Some o
       ∧ values o = yielded load <$> y :: ys
       ∧ length (values o) = length (y :: ys)
       ∧ ending o = Returns tt.
Proof.
  intros HR Hl Hf Hd Hp He Hfuel. eexists. split.
  - apply (iterate_Runs_nonempty f y ys None f' l n P h fuel); try done.
    simpl in Hfuel. lia.
  - cbn [values ending ending_of]. by rewrite length_fmap.
Qed.

(** The state a run with a last yield at address [p] leaves behind: a value
    is held, the state is done, and [GetCurrentValue()] reads the object at
    [p] in the final frame.  That is the value yielded last when the body
    has left that object alone since. *)
Lemma after_exhaustion ys p f1 fin f' l n P h :
  let h' := <[l := MkBlock n (Some (finished P (ys ++ [(p, f1)]) fin f'))]> h in
  HasValue (MkGenerator (Some l)) h' = (Returns true, h')
  ∧ IsDone (MkGenerator (Some l)) h' = (Returns true, h')
  ∧ GetCurrentValuePtr (MkGenerator (Some l)) h' = (Returns (Some p), h')
  ∧ GetCurrentValue load (MkGenerator (Some l)) h' = (Returns (load f' p), h')
  ∧ (load f' p = load f1 p →
     GetCurrentValue load (MkGenerator (Some l)) h' = (Returns (yielded load (p, f1)), h')).
Proof.
  intros h'.
  assert (Hl' : h' !! l = Some (MkBlock n (Some (finished P (ys ++ [(p, f1)]) fin f'))))
    by (unfold h'; by rewrite lookup_insert_eq).
  assert (Hp : CurrentValuePtr (finished P (ys ++ [(p, f1)]) fin f') = Some p).
  { unfold finished. cbn [CurrentValuePtr]. by rewrite last_snoc. }
  assert (Hget : GetCurrentValue load (MkGenerator (Some l)) h' = (Returns (load f' p), h'))
    by by rewrite (GetCurrentValue_alive l n _ p h' Hl' Hp).
  repeat split.
  - rewrite (HasValue_alive l n _ h' Hl'). by rewrite Hp.
  - by rewrite (IsDone_alive l n _ h' Hl').
  - unfold GetCurrentValuePtr. unfold_call.
    rewrite (deref_alive l n _ h' Hl'). by rewrite Hp.
  - done.
  - intros Heq. rewrite Hget. unfold yielded. cbn [fst snd]. by rewrite Heq.
Qed.

(** [CreateIterator()] is [begin()] as long as [begin()] does not throw; an
    exception of [begin()] ends the program. *)
Lemma CreateIterator_begin (g : TGenerator) h :
  CreateIterator body g h =
    match begin body g h with
    | (Throws _, h') => (Terminated, h')
    | r => r
    end.
Proof. done. Qed.

End Properties.

(** ** The generator of the documentation, run *)

Example Range_call Low High :
  coroutine_call (Range.call Low High) ∅ = (Returns Range.Values, Range.heap Low High).
Proof. reflexivity. Qed.

Example Script_call stmts :
  coroutine_call (Script.call stmts) ∅ = (Returns Script.Values, Script.heap stmts).
Proof. reflexivity. Qed.

Example Range_10_20_by_iterator :
  (λ o, (values o, ending o)) <$>
    iterate Range.body Range.load 12 Range.Values (Range.heap 10 20)
  = Some ([10; 11; 12; 13; 14; 15; 16; 17; 18; 19]%Z, Returns tt).
Proof. vm_compute. reflexivity. Qed.

Example Range_10_20_by_Resume :
  (λ o, (values o, ending o)) <$>
    while_Resume Range.body Range.load 12 Range.Values (Range.heap 10 20)
  = Some ([10; 11; 12; 13; 14; 15; 16; 17; 18; 19]%Z, Returns tt).
Proof. vm_compute. reflexivity. Qed.

Example Range_5_5_by_Resume :
  (λ o, (values o, ending o)) <$>
    while_Resume Range.body Range.load 3 Range.Values (Range.heap 5 5)
  = Some ([], Returns tt).
Proof. vm_compute. reflexivity. Qed.

(** C2: the claim fails on the code for a body that yields nothing.  For
    [Range(5, 5)] the iterator loop does not stop at once: [begin()] drops
    the result of its [Resume()] and returns an iterator on the state, which
    is alive, so [i != end()] holds and the first turn of the loop reads
    through [CurrentValuePtr], which is null. *)
Theorem Range_empty_iteration_reads_null :
  (λ o, (values o, ending o)) <$>
    iterate Range.body Range.load 3 Range.Values (Range.heap 5 5)
  = Some ([], Undefined).
Proof. vm_compute. reflexivity. Qed.

(** C4: the claim fails on the code.  For [Range(5, 5)], whose body yields
    nothing, [begin()] returns an iterator on the state of the generator,
    and this iterator is not equal to [end()]. *)
Theorem Range_empty_begin_is_not_end :
  let r := begin Range.body Range.Values (Range.heap 5 5) in
  r.1 = Returns (MkWeak (Some 0))
  ∧ (IsDone Range.Values r.2).1 = Returns true
  ∧ operator_eq (MkWeak (Some 0)) end_ r.2 = false
  ∧ operator_ne (MkWeak (Some 0)) end_ r.2 = true.
Proof. vm_compute. done. Qed.

(** C5: the claim fails on the code.  [Range(10, 20)] is run to its end by
    the iterator loop, which reads 10, ..., 19.  After the loop the generator
    still holds a value and is done, and [GetCurrentValue()] reads the loop
    variable [i] of the body through the address of the last yield: that is
    20, the value the last [i++] gave it, not 19. *)
Theorem Range_current_value_after_the_loop :
  ∃ o, iterate Range.body Range.load 12 Range.Values (Range.heap 10 20) = Some o
       ∧ values o = [10; 11; 12; 13; 14; 15; 16; 17; 18; 19]%Z
       ∧ ending o = Returns tt
       ∧ (HasValue Range.Values (heap_after o)).1 = Returns true
       ∧ (IsDone Range.Values (heap_after o)).1 = Returns true
       ∧ (GetCurrentValue Range.load Range.Values (heap_after o)).1 = Returns 20%Z.
Proof. eexists. vm_compute. done. Qed.

(** C9: the claim fails on the code.  On a generator whose body throws
    before its first yield, [begin()] throws the exception of the body to
    its caller; [CreateIterator()], which is [noexcept], ends the program. *)
Theorem CreateIterator_terminates_where_begin_throws :
  (begin Script.body Script.Values (Script.heap [Script.throw_ "boom"])).1
    = Throws "boom"
  ∧ (CreateIterator Script.body Script.Values (Script.heap [Script.throw_ "boom"])).1
    = Terminated.
Proof. vm_compute. done. Qed.

(** ** A body that throws *)

(** C1 as it is written fails on the code: the body yields one value and
    throws; call 2 of [Resume()] throws the exception, and calls 3 and 4,
    made after it, throw it again. *)
Lemma failure_thrown_again :
  (Resume_times Script.body 4 Script.Values
     (Script.heap [Script.co_yield 1; Script.throw_ "boom"])).1
  = [Returns true; Throws "boom"; Throws "boom"; Throws "boom"].
Proof. vm_compute. reflexivity. Qed.

(** C3 as it is written fails on the code: after the call of [Resume()]
    that finds the body throwing, the state has finished, and the next call
    of [Resume()] does not return false, it throws. *)
Lemma Resume_on_failed_state_throws :
  let h1 := (Resume Script.body Script.Values (Script.heap [Script.throw_ "boom"])).2 in
  (IsDone Script.Values h1).1 = Returns true
  ∧ (Resume Script.body Script.Values h1).1 = Throws "boom"
  ∧ (Resume Script.body Script.Values h1).1 ≠ Returns false.
Proof. vm_compute. done. Qed.

Lemma failure_after_N_values_witness :
  let stmts := [Script.co_yield 1; Script.co_yield 2; Script.throw_ "boom"] in
  let ys := [(Script.addr_temporary, Script.MkFrame [Script.co_yield 2; Script.throw_ "boom"] 1);
             (Script.addr_temporary, Script.MkFrame [Script.throw_ "boom"] 2)] in
  let P := initial_promise (Script.call stmts) in
  let f' := Script.MkFrame [] 2 in
  let h := Script.heap stmts in
  let h' := <[0 := MkBlock 1 (Some (finished P ys (Some "boom") f'))]> h in
  Runs Script.body (Script.call stmts) ys (Some "boom") f'
  ∧ h !! 0 = Some (MkBlock 1 (Some P))
  ∧ (∀ fuel, 2 < fuel →
       iterate Script.body Script.load fuel Script.Values h =
         Some (MkObserved [1; 2]%Z (Throws "boom") h'))
  ∧ Resume_times Script.body 3 Script.Values h =
      ([Returns true; Returns true; Throws "boom"], h')
  ∧ (∀ k, Resume_times Script.body k Script.Values h' = (replicate k (Throws "boom"), h'))
  ∧ begin Script.body Script.Values h' = (Throws "boom", h').
Proof.
  intros stmts ys P f' h h'.
  assert (HR : Runs Script.body (Script.call stmts) ys (Some "boom") f')
    by (apply (run_Runs Script.body 3); reflexivity).
  assert (Hl : h !! 0 = Some (MkBlock 1 (Some P))) by reflexivity.
  destruct (failure_after_N_values Script.body Script.load
              (Script.call stmts) ys "boom" f' 0 0 P h HR Hl
              eq_refl eq_refl eq_refl eq_refl)
    as (Hit & Hres & _ & Hagain & Hbegin).
  exact (conj HR (conj Hl (conj Hit (conj Hres (conj Hagain Hbegin))))).
Defined.

Lemma Resume_after_finish_witness :
  let P := MkPromise None (Some "boom") (Script.MkFrame [] 0) true 1 in
  let h := (Resume Script.body Script.Values (Script.heap [Script.throw_ "boom"])).2 in
  h !! 0 = Some (MkBlock 1 (Some P))
  ∧ done P = true
  ∧ call_Resume Script.body (Some 0) h = (Returns false, h)
  ∧ ∀ k, Resume_times Script.body k (MkGenerator (Some 0)) h =
           (replicate k (Throws "boom"), h).
Proof.
  intros P h.
  assert (Hl : h !! 0 = Some (MkBlock 1 (Some P))) by reflexivity.
  destruct (Resume_after_finish Script.body 0 1 P h Hl eq_refl) as [Hcall Htimes].
  exact (conj Hl (conj eq_refl (conj Hcall Htimes))).
Defined.

Lemma operator_inc_advance_witness :
  let h := Script.heap [Script.co_yield 1] in
  let P1 := MkPromise (Some Script.addr_temporary) None (Script.MkFrame [] 1) false 1 in
  let it := MkWeak (Some 0) in
  heap_wf h
  ∧ (IsValid (WeakPromise end_) h = false
     ∧ operator_inc Script.body (end_, h) =
         (CheckFailed "Attempted to advance an invalid iterator", (end_, h)))
  ∧ (IsValid (WeakPromise it) h = true
     ∧ operator_inc Script.body (it, h) =
         (Returns it, (it, <[0 := MkBlock 1 (Some P1)]> h))).
Proof.
  intros h P1 it.
  assert (Hwf : heap_wf h)
    by apply (heap_wf_coroutine_call (Script.call [Script.co_yield 1]) ∅), heap_wf_empty.
  split; [exact Hwf |]. split.
  - split; [reflexivity |].
    apply (proj1 (operator_inc_advance Script.body end_ h Hwf)). reflexivity.
  - split; [reflexivity |].
    destruct (proj2 (operator_inc_advance Script.body it h Hwf) eq_refl)
      as (l & n & P & Hit & Hl & Hyes & _).
    injection Hit as <-. vm_compute in Hl. injection Hl as <- <-.
    apply Hyes. reflexivity.
Defined.


(** ** More of the members *)

Section Kept.

Context {T Exn Ptr Frame : Type}.
Context (body : Frame → @Suspension Exn Ptr Frame) (load : Frame → Ptr → T).

Implicit Types (h : gmap nat (@ControlBlock Exn Ptr Frame)).
Implicit Types (P : @TGeneratorPromise Exn Ptr Frame).
Implicit Types (l n : nat) (w sp : option nat).

Ltac run_call :=
  repeat (progress (
    unfold mbind, M_bind, mret, M_ret, bind, ret, throw, undefined, get, put,
      checkf, on_heap, this_, set_this, scoped, noexcept;
    cbn [fst snd Promise WeakPromise negb])).

(** ** Reading the current value *)





(** X5. [operator bool] of an iterator is [true] exactly when the iterator
    differs from [end()]. *)
Theorem operator_bool_is_not_end (it : TGeneratorIterator) h :
  operator_bool it h = operator_ne it end_ h
  ∧ operator_bool it h = negb (operator_eq it end_ h).
Proof.
  destruct it as [w].
  unfold operator_bool, operator_ne, operator_eq, TWeakPtr_ne, TWeakPtr_eq, PinGet, end_.
  cbn [WeakPromise IsValid].
  destruct (IsValid w h) eqn:Hv.
  - destruct w as [l|]; [| done].
    rewrite bool_decide_eq_true_2; [| done].
    by rewrite bool_decide_eq_false_2.
  - rewrite bool_decide_eq_false_2; [| by intros []].
    by rewrite bool_decide_eq_true_2.
Qed.

(** X6. An iterator that outlives its generator is safe: once all the
    owners of the state have been destroyed, the iterator converts to
    false and is equal to [end()], and [operator++], [operator*] and
    [operator->] on it fail their check without touching the heap. *)
Theorem iterator_after_last_owner l n (o : option (@TGeneratorPromise Exn Ptr Frame)) h :
  h !! l = Some (MkBlock (S n) o) →
  let h' := drop_handles (S n) (MkGenerator (Some l)) h in
  let it := MkWeak (Some l) in
  operator_bool it h' = false
  ∧ operator_eq it end_ h' = true
  ∧ operator_inc body (it, h') =
      (CheckFailed "Attempted to advance an invalid iterator", (it, h'))
  ∧ operator_star load it h' =
      (CheckFailed "Attempted to dereference an invalid iterator", h')
  ∧ operator_arrow it h' =
      (CheckFailed "Attempted to dereference an invalid iterator", h').
Proof.
  intros Hl h' it.
  assert (Hv : IsValid (Some l) h' = false).
  { apply (IsValid_destroyed l None). unfold h'.
    rewrite (drop_handles_all l n o h Hl). by rewrite lookup_insert_eq. }
  split; [done |]. split.
  { unfold operator_eq, TWeakPtr_eq, PinGet, it, end_. cbn [WeakPromise].
    rewrite Hv. by apply bool_decide_eq_true_2. }
  unfold operator_inc, operator_star, operator_arrow, it. run_call.
  by rewrite Hv.
Qed.

(** ** Resuming by hand *)

Lemma Promise_Resume_true P :
  (Promise_Resume body P).1 = true →
  done (Promise_Resume body P).2 = false
  ∧ is_Some (CurrentValuePtr (Promise_Resume body P).2).
Proof.
  unfold Promise_Resume, handle_resume. cbn [fst snd].
  destruct (done P) eqn:Hd; cbn; [by rewrite Hd |].
  destruct (body (frame P)); cbn; done.
Qed.

(** A call of [Resume()] that does not end in undefined behaviour was made
    on a handle of a state that is there. *)
Lemma Resume_defined g h :
  (Resume body g h).1 ≠ Undefined →
  ∃ l n P, g = MkGenerator (Some l) ∧ h !! l = Some (MkBlock n (Some P)).
Proof.
  destruct g as [[l|]]; unfold Resume, call_Resume, deref; run_call.
  - destruct (h !! l) as [[k [P|]]|] eqn:Hl; intros H; try (exfalso; by apply H).
    by exists l, k, P.
  - intros H. exfalso. by apply H.
Qed.

(** X7. When [Resume()] returns, it returns the negation of what [IsDone()]
    says afterwards.  When it returns true the generator holds a value:
    [HasValue()] is true and [GetCurrentValue()] returns. *)
Theorem Resume_returns_not_IsDone (g : TGenerator) h r h' :
  Resume body g h = (Returns r, h') →
  IsDone g h' = (Returns (negb r), h')
  ∧ (r = true →
     HasValue g h' = (Returns true, h')
     ∧ ∃ v, GetCurrentValue load g h' = (Returns v, h')).
Proof.
  intros HR.
  destruct (Resume_defined g h) as (l & n & P & -> & Hl); [by rewrite HR |].
  rewrite (Resume_alive body l n P h Hl) in HR.
  pose proof (Promise_Resume_result body P) as Hres.
  pose proof (Promise_Resume_true P) as Htrue.
  destruct (Promise_Resume body P) as [r0 P1]. cbn [fst snd] in *.
  destruct (Exception P1) eqn:He; [done |].
  injection HR as <- <-.
  assert (Hl' : (<[l := MkBlock n (Some P1)]> h) !! l = Some (MkBlock n (Some P1)))
    by by rewrite lookup_insert_eq.
  split.
  - rewrite (IsDone_alive l n _ _ Hl'). by rewrite Hres, negb_involutive.
  - intros Hr. destruct (Htrue Hr) as [_ [p Hp]]. split.
    + rewrite (HasValue_alive l n _ _ Hl'). by rewrite Hp.
    + eexists. by apply (GetCurrentValue_alive load l n P1 p).
Qed.

(** The promise invariant that every resume keeps: an exception is stored
    only in a coroutine that is done. *)
Lemma Promise_Resume_Exception P :
  (Exception P = None ∨ done P = true) →
  Exception (Promise_Resume body P).2 = None ∨ done (Promise_Resume body P).2 = true.
Proof.
  unfold Promise_Resume, handle_resume. cbn [snd].
  destruct (done P) eqn:Hd; cbn; [by rewrite Hd; right |].
  intros [He | ?]; [| done].
  destruct (body (frame P)); cbn; auto.
Qed.

(** X8. On a generator whose promise stores an exception only when it is
    done, as the promise of every generator made by a call and resumed
    through this interface does, a call of [Resume()] that throws leaves the
    generator done, with the promise still in that condition, and the next
    call of [Resume()] throws the same exception and changes nothing. *)
Theorem Resume_throws_when_done l n P h e h' :
  h !! l = Some (MkBlock n (Some P)) →
  Exception P = None ∨ done P = true →
  Resume body (MkGenerator (Some l)) h = (Throws e, h') →
  IsDone (MkGenerator (Some l)) h' = (Returns true, h')
  ∧ Resume body (MkGenerator (Some l)) h' = (Throws e, h')
  ∧ ∃ P', h' !! l = Some (MkBlock n (Some P'))
          ∧ (Exception P' = None ∨ done P' = true).
Proof.
  intros Hl Hinv HR.
  rewrite (Resume_alive body l n P h Hl) in HR.
  pose proof (Promise_Resume_Exception P Hinv) as Hinv'.
  destruct (Promise_Resume body P) as [r0 P1]. cbn [fst snd] in *.
  destruct (Exception P1) as [e0|] eqn:He; [| done].
  injection HR as -> <-.
  destruct Hinv' as [? | Hd']; [done |].
  assert (Hl' : (<[l := MkBlock n (Some P1)]> h) !! l = Some (MkBlock n (Some P1)))
    by by rewrite lookup_insert_eq.
  split; [| split].
  - rewrite (IsDone_alive l n _ _ Hl'). by rewrite Hd'.
  - rewrite (Resume_alive body l n _ _ Hl').
    rewrite (Promise_Resume_done body _ Hd'). cbn [fst snd].
    rewrite He. by rewrite insert_insert_eq.
  - eexists. split; [done |]. by right.
Qed.

(** A value once held stays held, and a coroutine once done stays as it
    is, through any number of calls of [Resume()]. *)
Lemma Resume_times_state l n P h k :
  h !! l = Some (MkBlock n (Some P)) →
  ∃ P', (Resume_times body k (MkGenerator (Some l)) h).2
          = <[l := MkBlock n (Some P')]> h
        ∧ (is_Some (CurrentValuePtr P) → is_Some (CurrentValuePtr P'))
        ∧ (done P = true → P' = P)
        ∧ Resumptions P ≤ Resumptions P' ≤ Resumptions P + k.
Proof.
  revert P h. induction k as [|k IH]; intros P h Hl.
  - exists P. cbn. rewrite (insert_id h l _ Hl). repeat split; try done; lia.
  - cbn [Resume_times]. rewrite (Resume_alive body l n P h Hl).
    set (P1 := (Promise_Resume body P).2).
    set (h1 := <[l := MkBlock n (Some P1)]> h).
    destruct (IH P1 h1) as (P' & Hh & Hval & Hdone & Hres);
      [by unfold h1; rewrite lookup_insert_eq |].
    destruct (Resume_times body k (MkGenerator (Some l)) h1) as [os h2].
    cbn [snd] in *. exists P'. subst h2.
    assert (H1 : (is_Some (CurrentValuePtr P) → is_Some (CurrentValuePtr P1))
                 ∧ (done P = true → P1 = P)
                 ∧ Resumptions P ≤ Resumptions P1 ≤ S (Resumptions P)).
    { unfold P1, Promise_Resume, handle_resume. cbn [snd].
      destruct (done P) eqn:Hd; cbn; [repeat split; try done; lia |].
      destruct (body (frame P)); cbn; repeat split; try done; try lia. }
    destruct H1 as (Hval1 & Hdone1 & Hres1).
    split; [by unfold h1; rewrite insert_insert_eq |].
    split; [by auto |]. split.
    + intros Hd. rewrite <- (Hdone1 Hd). apply Hdone.
      by rewrite (Hdone1 Hd).
    + lia.
Qed.

(** X9. [HasValue()] and [IsDone()] never go back to false: whatever the
    calls of [Resume()] made in between return or throw, a generator that
    held a value holds one after them, and a generator that was done is
    done after them, with the same current value address.  No call of
    [Resume()] enters the body more than once. *)
Theorem HasValue_and_IsDone_stay l n P h k :
  h !! l = Some (MkBlock n (Some P)) →
  let g := MkGenerator (Some l) in
  let h' := (Resume_times body k g h).2 in
  ((HasValue g h).1 = Returns true → (HasValue g h').1 = Returns true)
  ∧ ((IsDone g h).1 = Returns true →
     (IsDone g h').1 = Returns true
     ∧ (GetCurrentValuePtr g h').1 = (GetCurrentValuePtr g h).1
     ∧ h' = h)
  ∧ ∃ P', h' !! l = Some (MkBlock n (Some P'))
          ∧ Resumptions P ≤ Resumptions P' ≤ Resumptions P + k.
Proof.
  intros Hl g h'.
  destruct (Resume_times_state l n P h k Hl) as (P' & Hh & Hval & Hdone & Hres).
  fold g h' in Hh.
  assert (Hl' : h' !! l = Some (MkBlock n (Some P')))
    by (rewrite Hh; by rewrite lookup_insert_eq).
  unfold g. rewrite (HasValue_alive l n P h Hl), (HasValue_alive l n P' h' Hl').
  rewrite (IsDone_alive l n P h Hl), (IsDone_alive l n P' h' Hl').
  cbn [fst]. split; [| split].
  - destruct (CurrentValuePtr P) as [p|]; [| done]. intros _.
    destruct Hval as [p' Hp']; [by eexists |]. by rewrite Hp'.
  - intros [= Hd]. specialize (Hdone Hd). subst P'.
    split; [by rewrite Hd |]. split.
    + unfold GetCurrentValuePtr. run_call.
      by rewrite (deref_alive l n P h Hl), (deref_alive l n P h' Hl').
    + rewrite Hh. by apply insert_id.
  - by exists P'.
Qed.

(** ** [begin()] again *)

Lemma primed_primed P : primed body (primed body P) = primed body P.
Proof.
  unfold primed at 2 3. destruct (CurrentValuePtr P) as [p|] eqn:Hp.
  - unfold primed. by rewrite Hp.
  - unfold primed, Promise_Resume, handle_resume. cbn [snd].
    destruct (done P) eqn:Hd; cbn; [by rewrite Hp, Hd |].
    destruct (body (frame P)); cbn; by rewrite ?Hp.
Qed.

(** X10. [begin()] on a state that is there enters the body once when the
    generator holds no value and is not done, and not at all otherwise; it
    changes nothing else but the promise.  Calling [begin()] again at once
    gives the same outcome and leaves the heap as the first call left it:
    the second call does not advance the generator. *)
Theorem begin_primes_once l n P h :
  h !! l = Some (MkBlock n (Some P)) →
  let g := MkGenerator (Some l) in
  (begin body g h).2 = <[l := MkBlock n (Some (primed body P))]> h
  ∧ Resumptions (primed body P) =
      match CurrentValuePtr P with
      | Some _ => Resumptions P
      | None => if done P then Resumptions P else S (Resumptions P)
      end
  ∧ begin body g (begin body g h).2 = begin body g h.
Proof.
  intros Hl g. unfold g. rewrite (begin_alive body l n P h Hl). cbn [snd].
  split; [done |]. split.
  - unfold primed. destruct (CurrentValuePtr P); [done |].
    apply Promise_Resume_Resumptions.
  - rewrite (begin_alive body l n (primed body P)); [| by rewrite lookup_insert_eq].
    rewrite primed_primed. by rewrite insert_insert_eq.
Qed.

(** X11. Iterating a generator a second time, once its body has returned
    after at least one yield, does not find it empty.  [begin()] does not
    resume and changes nothing; the iterator it returns refers to the state
    and is not [end()], so the loop is entered, on the address that the last
    yield stored, which the promise still has.  The first [operator++(int)]
    finds the coroutine done, clears the iterator and changes nothing else:
    the loop has one turn. *)
Theorem iterate_again_has_one_turn l n P p h :
  h !! l = Some (MkBlock (S n) (Some P)) →
  done P = true → CurrentValuePtr P = Some p → Exception P = None →
  let g := MkGenerator (Some l) in
  let it := MkWeak (Some l) in
  begin body g h = (Returns it, h)
  ∧ operator_ne it end_ h = true
  ∧ GetCurrentValuePtr g h = (Returns (Some p), h)
  ∧ operator_inc_int body (it, h) = (Returns tt, (end_, h))
  ∧ operator_ne end_ end_ h = false.
Proof.
  intros Hl Hd Hp He g it. subst g it.
  split; [| split; [| split; [| split]]].
  - rewrite (begin_finished body l (S n) P h Hl Hd). by rewrite He.
  - by apply (operator_ne_end_alive l n (Some P)).
  - unfold GetCurrentValuePtr. run_call.
    rewrite (deref_alive l (S n) P h Hl). by rewrite Hp.
  - unfold operator_inc_int. run_call.
    rewrite (operator_inc_alive body l n P h Hl).
    rewrite (Promise_Resume_done body P Hd). cbn [fst snd]. rewrite He.
    by rewrite (insert_id h l _ Hl).
  - done.
Qed.

(** ** Creation and ownership *)

(** X12. Generators are lazy.  The call of a generator function returns a
    handle of a new state, at an address that was free, with one owner; the
    body has not been entered: the generator holds no value, is not done,
    [GetCurrentValue()] fails its check, and the weak handle of the
    generator is valid. *)
Theorem coroutine_call_is_lazy (f0 : Frame) h :
  ∃ l h',
    coroutine_call f0 h = (Returns (MkGenerator (Some l)), h')
    ∧ h !! l = None
    ∧ h' !! l = Some (MkBlock 1 (Some (MkPromise None None f0 false 0)))
    ∧ HasValue (MkGenerator (Some l)) h' = (Returns false, h')
    ∧ IsDone (MkGenerator (Some l)) h' = (Returns false, h')
    ∧ GetCurrentValue load (MkGenerator (Some l)) h' =
        (CheckFailed "Attempted to access an empty generator", h')
    ∧ IsValid (WeakPromise (GetWeakHandle (MkGenerator (Some l)))) h' = true.
Proof.
  destruct (coroutine_call_fresh f0 h) as (l & Hfree & Hcall).
  eexists l, _. split; [exact Hcall |]. split; [done |].
  assert (Hl' : (<[l := MkBlock 1 (Some (initial_promise f0))]> h) !! l
                = Some (MkBlock 1 (Some (initial_promise (Exn := Exn) (Ptr := Ptr) f0))))
    by by rewrite lookup_insert_eq.
  split; [exact Hl' |]. split; [| split; [| split]].
  - by rewrite (HasValue_alive l 1 _ _ Hl').
  - by rewrite (IsDone_alive l 1 _ _ Hl').
  - unfold GetCurrentValue, deref. run_call. by rewrite Hl'.
  - by apply (IsValid_alive l 0 _ _ Hl').
Qed.

(** ** The two loops of the documentation *)

(** X14. The loop [while (Values.Resume()) use(Values.GetCurrentValue());]
    on a generator that is not done and stores no exception reads the values
    of the rest of the run, all of them and in the order of the yields, also
    when there is none; it ends by the return of false when the body returns
    and by the exception when the body throws.  The body has then been
    entered once per value and once more, and the number of owners is as
    before. *)
Theorem while_Resume_reads_the_run f ys fin f' l n P h fuel :
  Runs body f ys fin f' →
  h !! l = Some (MkBlock n (Some P)) →
  frame P = f → done P = false → Exception P = None →
  length ys < fuel →
  ∃ o, while_Resume body load fuel (MkGenerator (Some l)) h = Some o
       ∧ values o = yielded load <$> ys
       ∧ length (values o) = length ys
       ∧ ending o = ending_of fin
       ∧ ∃ P', heap_after o = <[l := MkBlock n (Some P')]> h
               ∧ done P' = true
               ∧ Resumptions P' = Resumptions P + S (length ys).
Proof.
  intros HR Hl Hf Hd He Hfuel. eexists. split.
  - by apply (while_Resume_Runs body load f ys fin f' HR l n P h fuel).
  - cbn [values ending heap_after]. split; [done |].
    split; [by rewrite length_fmap |]. split; [done |].
    by eexists.
Qed.

(** X15. The two loops agree on a generator that has not been started and
    whose body yields at least once: the iterator loop from [begin()] to
    [end()] and the loop on [Resume()] read the same values, end the same
    way and leave the same heap. *)
Theorem loops_agree f y ys fin f' l n P h fuel :
  Runs body f (y :: ys) fin f' →
  h !! l = Some (MkBlock (S n) (Some P)) →
  frame P = f → done P = false →
  CurrentValuePtr P = None → Exception P = None →
  length (y :: ys) < fuel →
  iterate body load fuel (MkGenerator (Some l)) h =
    while_Resume body load fuel (MkGenerator (Some l)) h
  ∧ ∃ o, iterate body load fuel (MkGenerator (Some l)) h = Some o
         ∧ values o = yielded load <$> y :: ys
         ∧ ending o = ending_of fin.
Proof.
  intros HR Hl Hf Hd Hp He Hfuel.
  rewrite (iterate_Runs_nonempty body load f y ys fin f' l n P h fuel HR Hl Hf Hd Hp He);
    [| simpl in Hfuel; lia].
  rewrite (while_Resume_Runs body load f (y :: ys) fin f' HR l (S n) P h fuel Hl Hf Hd He Hfuel).
  split; [done |]. by eexists.
Qed.

End Kept.

(** ** [Range(Low, High)] for all bounds *)

Lemma Range_Runs_from_yield Low High k : ∀ i,
  (i < High)%Z → Z.to_nat (High - i) = S k →
  Runs Range.body (Range.MkFrame Low High i Range.AtYield)
    ((λ j, (Range.addr_i, Range.MkFrame Low High j Range.AtYield))
       <$> seqZ (i + 1) (High - (i + 1)))
    None (Range.MkFrame Low High High Range.AtFinalSuspend).
Proof.
  induction k as [|k IH]; intros i Hi Hk.
  - assert (i + 1 = High)%Z as Heq by lia.
    rewrite seqZ_nil; [| lia]. apply Runs_return.
    unfold Range.body, Range.loop_test. cbn.
    rewrite bool_decide_eq_false_2; [| lia]. by rewrite Heq.
  - rewrite seqZ_cons; [| lia]. cbn [fmap list_fmap].
    eapply Runs_yield.
    + unfold Range.body, Range.loop_test. cbn.
      by rewrite bool_decide_eq_true_2; [| lia].
    + replace (Z.succ (i + 1)) with (i + 1 + 1)%Z by lia.
      replace (Z.pred (High - (i + 1))) with (High - (i + 1 + 1))%Z by lia.
      apply IH; lia.
Qed.

Lemma Range_Runs Low High :
  Runs Range.body (Range.call Low High) (Range.suspensions Low High) None
    (Range.MkFrame Low High (Z.max Low High) Range.AtFinalSuspend).
Proof.
  unfold Range.suspensions.
  destruct (decide (Low < High)%Z) as [Hlt | Hge].
  - rewrite seqZ_cons; [| lia]. cbn [fmap list_fmap].
    eapply Runs_yield.
    + unfold Range.body, Range.loop_test, Range.call. cbn.
      by rewrite bool_decide_eq_true_2.
    + replace (Z.succ Low) with (Low + 1)%Z by lia.
      replace (Z.pred (High - Low)) with (High - (Low + 1))%Z by lia.
      replace (Z.max Low High) with High by lia.
      apply (Range_Runs_from_yield Low High (Z.to_nat (High - Low) - 1)); lia.
  - rewrite seqZ_nil; [| lia]. apply Runs_return.
    unfold Range.body, Range.loop_test, Range.call. cbn.
    rewrite bool_decide_eq_false_2; [| done].
    by replace (Z.max Low High) with Low by lia.
Qed.

Lemma Range_yielded Low High :
  yielded Range.load <$> Range.suspensions Low High = seqZ Low (High - Low).
Proof.
  unfold Range.suspensions. rewrite <- list_fmap_compose.
  rewrite <- (list_fmap_id (seqZ Low (High - Low))) at 2.
  by apply list_fmap_ext.
Qed.

(** X16. The generator of the documentation, for all bounds that an [int]
    holds.  Run by the loop on [Resume()], [Range(Low, High)] gives [Low],
    [Low + 1], ..., [High - 1], that is [High - Low] values when
    [Low < High] and none otherwise; the loop ends normally and leaves the
    generator done.  When [Low < High] the iterator loop reads the same
    values and ends the same way.  Every value read fits an [int], and
    every value is read while the body is suspended in the [co_yield] that
    gave it. *)
Theorem Range_counts_from_Low_to_High Low High fuel :
  Range.fits_int Low → Range.fits_int High →
  Z.to_nat (High - Low) < fuel →
  (∃ o, while_Resume Range.body Range.load fuel Range.Values (Range.heap Low High) = Some o
        ∧ values o = seqZ Low (High - Low)
        ∧ length (values o) = Z.to_nat (High - Low)
        ∧ Forall Range.fits_int (values o)
        ∧ ending o = Returns tt
        ∧ (IsDone Range.Values (heap_after o)).1 = Returns true)
  ∧ ((Low < High)%Z →
     ∃ o, iterate Range.body Range.load fuel Range.Values (Range.heap Low High) = Some o
          ∧ values o = seqZ Low (High - Low)
          ∧ length (values o) = Z.to_nat (High - Low)
          ∧ Forall Range.fits_int (values o)
          ∧ ending o = Returns tt
          ∧ (IsDone Range.Values (heap_after o)).1 = Returns true).
Proof.
  intros HLow HHigh Hfuel.
  pose proof (Range_Runs Low High) as HR.
  assert (Hl : Range.heap Low High !! 0
               = Some (MkBlock 1 (Some (initial_promise (Range.call Low High)))))
    by reflexivity.
  assert (Hlen : length (Range.suspensions Low High) = Z.to_nat (High - Low))
    by (unfold Range.suspensions; by rewrite length_fmap, length_seqZ).
  assert (Hfit : Forall Range.fits_int (seqZ Low (High - Low))).
  { apply Forall_forall. intros x Hx. apply elem_of_seqZ in Hx.
    unfold Range.fits_int in *. lia. }
  assert (Hdone : ∀ (ys : list (Range.Ptr * Range.Frame))
                    (h : gmap nat (@ControlBlock Empty_set Range.Ptr Range.Frame)),
            (IsDone Range.Values
               (<[0 := MkBlock 1 (Some (finished (initial_promise (Range.call Low High)) ys None
                    (Range.MkFrame Low High (Z.max Low High) Range.AtFinalSuspend)))]> h)).1
            = Returns true).
  { intros ys h. unfold Range.Values.
    by rewrite (IsDone_alive 0 1
                  (finished (initial_promise (Range.call Low High)) ys None
                     (Range.MkFrame Low High (Z.max Low High) Range.AtFinalSuspend)));
      [| by rewrite lookup_insert_eq]. }
  split.
  - eexists. split.
    + apply (while_Resume_Runs Range.body Range.load (Range.call Low High)
               (Range.suspensions Low High) None
               (Range.MkFrame Low High (Z.max Low High) Range.AtFinalSuspend)
               HR 0 1 (initial_promise (Range.call Low High))
               (Range.heap Low High) fuel Hl); try done. lia.
    + cbn [values ending heap_after ending_of]. rewrite Range_yielded.
      split; [done |]. split; [by rewrite length_seqZ |].
      split; [done |]. split; [done | apply Hdone].
  - intros Hlt.
    destruct (Range.suspensions Low High) as [|y ys] eqn:Hys.
    { simpl in Hlen. lia. }
    eexists. split.
    + apply (iterate_Runs_nonempty Range.body Range.load (Range.call Low High)
               y ys None
               (Range.MkFrame Low High (Z.max Low High) Range.AtFinalSuspend)
               0 0 (initial_promise (Range.call Low High))
               (Range.heap Low High) fuel HR Hl); try done. simpl in Hlen. lia.
    + cbn [values ending heap_after ending_of]. rewrite <- Hys, Range_yielded.
      split; [done |]. split; [by rewrite length_seqZ |].
      split; [done |]. split; [done | apply Hdone].
Qed.

(** ** The properties above on generators that run *)



Lemma iterator_after_last_owner_witness :
  let h := Script.heap [Script.co_yield 1] in
  let P := initial_promise (Script.call [Script.co_yield 1]) in
  let h' := drop_handles 1 (MkGenerator (Some 0)) h in
  let it := MkWeak (Some 0) in
  h !! 0 = Some (MkBlock 1 (Some P))
  ∧ operator_bool it h' = false
  ∧ operator_eq it end_ h' = true
  ∧ operator_inc Script.body (it, h') =
      (CheckFailed "Attempted to advance an invalid iterator", (it, h'))
  ∧ operator_star Script.load it h' =
      (CheckFailed "Attempted to dereference an invalid iterator", h')
  ∧ operator_arrow it h' =
      (CheckFailed "Attempted to dereference an invalid iterator", h').
Proof.
  intros h P h' it.
  assert (Hl : h !! 0 = Some (MkBlock 1 (Some P))) by reflexivity.
  exact (conj Hl (iterator_after_last_owner Script.body Script.load 0 0 (Some P) h Hl)).
Defined.

Lemma Resume_returns_not_IsDone_witness :
  let h := Script.heap [Script.co_yield 1] in
  let h1 := (Resume Script.body Script.Values h).2 in
  Resume Script.body Script.Values h = (Returns true, h1)
  ∧ IsDone Script.Values h1 = (Returns false, h1)
  ∧ HasValue Script.Values h1 = (Returns true, h1)
  ∧ ∃ v, GetCurrentValue Script.load Script.Values h1 = (Returns v, h1).
Proof.
  intros h h1.
  assert (HR : Resume Script.body Script.Values h = (Returns true, h1)) by reflexivity.
  destruct (Resume_returns_not_IsDone Script.body Script.load Script.Values h true h1 HR)
    as [Hdone Hvalue].
  destruct (Hvalue eq_refl) as [Hhas Hget].
  exact (conj HR (conj Hdone (conj Hhas Hget))).
Defined.

Lemma Resume_throws_when_done_witness :
  let h := Script.heap [Script.throw_ "boom"] in
  let P := initial_promise (Script.call [Script.throw_ "boom"]) in
  let h1 := (Resume Script.body Script.Values h).2 in
  h !! 0 = Some (MkBlock 1 (Some P))
  ∧ (Exception P = None ∨ done P = true)
  ∧ Resume Script.body (MkGenerator (Some 0)) h = (Throws "boom", h1)
  ∧ IsDone (MkGenerator (Some 0)) h1 = (Returns true, h1)
  ∧ Resume Script.body (MkGenerator (Some 0)) h1 = (Throws "boom", h1).
Proof.
  intros h P h1.
  assert (Hl : h !! 0 = Some (MkBlock 1 (Some P))) by reflexivity.
  assert (Hinv : Exception P = None ∨ done P = true) by (left; reflexivity).
  assert (HR : Resume Script.body (MkGenerator (Some 0)) h = (Throws "boom", h1))
    by reflexivity.
  destruct (Resume_throws_when_done Script.body 0 1 P h "boom" h1 Hl Hinv HR)
    as (Hdone & Hagain & _).
  exact (conj Hl (conj Hinv (conj HR (conj Hdone Hagain)))).
Defined.

Lemma HasValue_and_IsDone_stay_witness :
  let stmts := [Script.co_yield 1; Script.co_yield 2] in
  let h := (Resume Script.body Script.Values (Script.heap stmts)).2 in
  let P := MkPromise (Some Script.addr_temporary) None
             (Script.MkFrame [Script.co_yield 2] 1) false 1 in
  let g := MkGenerator (Some 0) in
  let h' := (Resume_times Script.body 5 g h).2 in
  h !! 0 = Some (MkBlock 1 (Some P))
  ∧ (HasValue g h).1 = Returns true
  ∧ (HasValue g h').1 = Returns true
  ∧ ∃ P', h' !! 0 = Some (MkBlock 1 (Some P')) ∧ 1 ≤ Resumptions P' ≤ 1 + 5.
Proof.
  intros stmts h P g h'.
  assert (Hl : h !! 0 = Some (MkBlock 1 (Some P))) by reflexivity.
  destruct (HasValue_and_IsDone_stay Script.body 0 1 P h 5 Hl) as (Hhas & _ & Hres).
  exact (conj Hl (conj eq_refl (conj (Hhas eq_refl) Hres))).
Defined.

Lemma begin_primes_once_witness :
  let h := Script.heap [Script.co_yield 1] in
  let P := initial_promise (Script.call [Script.co_yield 1]) in
  let g := MkGenerator (Some 0) in
  h !! 0 = Some (MkBlock 1 (Some P))
  ∧ (begin Script.body g h).2 = <[0 := MkBlock 1 (Some (primed Script.body P))]> h
  ∧ Resumptions (primed Script.body P) = 1
  ∧ begin Script.body g (begin Script.body g h).2 = begin Script.body g h.
Proof.
  intros h P g.
  assert (Hl : h !! 0 = Some (MkBlock 1 (Some P))) by reflexivity.
  exact (conj Hl (begin_primes_once Script.body 0 1 P h Hl)).
Defined.

Lemma iterate_again_has_one_turn_witness :
  let stmts := [Script.co_yield 1; Script.co_yield 2] in
  let h := (Resume_times Script.body 3 Script.Values (Script.heap stmts)).2 in
  let P := MkPromise (Some Script.addr_temporary) None (Script.MkFrame [] 2) true 3 in
  let g := MkGenerator (Some 0) in
  let it := MkWeak (Some 0) in
  h !! 0 = Some (MkBlock 1 (Some P))
  ∧ begin Script.body g h = (Returns it, h)
  ∧ operator_ne it end_ h = true
  ∧ GetCurrentValuePtr g h = (Returns (Some Script.addr_temporary), h)
  ∧ operator_inc_int Script.body (it, h) = (Returns tt, (end_, h))
  ∧ operator_ne end_ end_ h = false.
Proof.
  intros stmts h P g it.
  assert (Hl : h !! 0 = Some (MkBlock 1 (Some P))) by reflexivity.
  exact (conj Hl
    (iterate_again_has_one_turn Script.body 0 0 P Script.addr_temporary h
       Hl eq_refl eq_refl eq_refl)).
Defined.

Lemma while_Resume_reads_the_run_witness :
  let stmts := [Script.co_yield 1; Script.co_yield 2] in
  let ys := [(Script.addr_temporary, Script.MkFrame [Script.co_yield 2] 1);
             (Script.addr_temporary, Script.MkFrame [] 2)] in
  let P := initial_promise (Script.call stmts) in
  let h := Script.heap stmts in
  Runs Script.body (Script.call stmts) ys None (Script.MkFrame [] 2)
  ∧ h !! 0 = Some (MkBlock 1 (Some P))
  ∧ 2 < 3
  ∧ ∃ o, while_Resume Script.body Script.load 3 (MkGenerator (Some 0)) h = Some o
         ∧ values o = [1; 2]%Z
         ∧ length (values o) = 2
         ∧ ending o = Returns tt
         ∧ ∃ P', heap_after o = <[0 := MkBlock 1 (Some P')]> h
                 ∧ done P' = true
                 ∧ Resumptions P' = 0 + 3.
Proof.
  intros stmts ys P h.
  assert (HR : Runs Script.body (Script.call stmts) ys None (Script.MkFrame [] 2))
    by (apply (run_Runs Script.body 3); reflexivity).
  assert (Hl : h !! 0 = Some (MkBlock 1 (Some P))) by reflexivity.
  assert (Hfuel : 2 < 3) by lia.
  exact (conj HR (conj Hl (conj Hfuel
    (while_Resume_reads_the_run Script.body Script.load (Script.call stmts) ys None
       (Script.MkFrame [] 2) 0 1 P h 3 HR Hl eq_refl eq_refl eq_refl Hfuel)))).
Defined.

Lemma loops_agree_witness :
  let stmts := [Script.co_yield 1; Script.co_yield 2; Script.throw_ "boom"] in
  let y := (Script.addr_temporary,
            Script.MkFrame [Script.co_yield 2; Script.throw_ "boom"] 1) in
  let ys := [(Script.addr_temporary, Script.MkFrame [Script.throw_ "boom"] 2)] in
  let P := initial_promise (Script.call stmts) in
  let h := Script.heap stmts in
  Runs Script.body (Script.call stmts) (y :: ys) (Some "boom") (Script.MkFrame [] 2)
  ∧ h !! 0 = Some (MkBlock 1 (Some P))
  ∧ 2 < 3
  ∧ iterate Script.body Script.load 3 (MkGenerator (Some 0)) h =
      while_Resume Script.body Script.load 3 (MkGenerator (Some 0)) h
  ∧ ∃ o, iterate Script.body Script.load 3 (MkGenerator (Some 0)) h = Some o
         ∧ values o = [1; 2]%Z
         ∧ ending o = Throws "boom".
Proof.
  intros stmts y ys P h.
  assert (HR : Runs Script.body (Script.call stmts) (y :: ys) (Some "boom")
                 (Script.MkFrame [] 2))
    by (apply (run_Runs Script.body 3); reflexivity).
  assert (Hl : h !! 0 = Some (MkBlock 1 (Some P))) by reflexivity.
  assert (Hfuel : 2 < 3) by lia.
  exact (conj HR (conj Hl (conj Hfuel
    (loops_agree Script.body Script.load (Script.call stmts) y ys (Some "boom")
       (Script.MkFrame [] 2) 0 0 P h 3 HR Hl eq_refl eq_refl eq_refl eq_refl Hfuel)))).
Defined.

Lemma Range_counts_from_Low_to_High_witness :
  Range.fits_int 10
  ∧ Range.fits_int 20
  ∧ Z.to_nat (20 - 10) < 11
  ∧ (10 < 20)%Z
  ∧ (∃ o, while_Resume Range.body Range.load 11 Range.Values (Range.heap 10 20) = Some o
          ∧ values o = seqZ 10 (20 - 10)
          ∧ length (values o) = Z.to_nat (20 - 10)
          ∧ Forall Range.fits_int (values o)
          ∧ ending o = Returns tt
          ∧ (IsDone Range.Values (heap_after o)).1 = Returns true)
  ∧ ∃ o, iterate Range.body Range.load 11 Range.Values (Range.heap 10 20) = Some o
         ∧ values o = seqZ 10 (20 - 10)
         ∧ length (values o) = Z.to_nat (20 - 10)
         ∧ Forall Range.fits_int (values o)
         ∧ ending o = Returns tt
         ∧ (IsDone Range.Values (heap_after o)).1 = Returns true.
Proof.
  assert (H10 : Range.fits_int 10) by (unfold Range.fits_int; lia).
  assert (H20 : Range.fits_int 20) by (unfold Range.fits_int; lia).
  assert (Hfuel : Z.to_nat (20 - 10) < 11) by (vm_compute; lia).
  assert (Hlt : (10 < 20)%Z) by lia.
  destruct (Range_counts_from_Low_to_High 10 20 11 H10 H20 Hfuel) as [Hwhile Hiter].
  exact (conj H10 (conj H20 (conj Hfuel (conj Hlt (conj Hwhile (Hiter Hlt)))))).
Defined.

(** ** [Resume()] before [begin()] *)

Section Mixing.

Context {T Exn Ptr Frame : Type}.
Context (body : Frame → @Suspension Exn Ptr Frame) (load : Frame → Ptr → T).

Lemma primed_after_Resume (P : @TGeneratorPromise Exn Ptr Frame) :
  CurrentValuePtr P = None →
  primed body (Promise_Resume body P).2 = (Promise_Resume body P).2
  ∧ primed body P = (Promise_Resume body P).2.
Proof.
  intros Hp.
  assert (HP : primed body P = (Promise_Resume body P).2)
    by (unfold primed; by rewrite Hp).
  split; [| done]. rewrite <- HP. unfold primed at 1 3.
  destruct (CurrentValuePtr (primed body P)) eqn:Hp1; [done |].
  unfold primed in *. rewrite Hp in *.
  unfold Promise_Resume, handle_resume in *. cbn [snd] in *.
  destruct (done P) eqn:Hd; cbn in *; [by rewrite Hd |].
  destruct (body (frame P)); cbn in *; done.
Qed.

(** X17. On a generator that holds no value, a call of [Resume()] that
    returns takes the place of the priming: [begin()] after it gives the
    outcome and the heap that [begin()] alone gives, and the iterator loop
    after it reads what the iterator loop alone reads, no value skipped and
    none read twice. *)
Theorem Resume_before_begin l n P h r h1 :
  h !! l = Some (MkBlock n (Some P)) →
  CurrentValuePtr P = None →
  Resume body (MkGenerator (Some l)) h = (Returns r, h1) →
  begin body (MkGenerator (Some l)) h1 = begin body (MkGenerator (Some l)) h
  ∧ ∀ fuel, iterate body load fuel (MkGenerator (Some l)) h1 =
            iterate body load fuel (MkGenerator (Some l)) h.
Proof.
  intros Hl Hp HR.
  rewrite (Resume_alive body l n P h Hl) in HR.
  destruct (primed_after_Resume P Hp) as [Hprimed1 Hprimed].
  assert (Hbegin : begin body (MkGenerator (Some l)) h1
                   = begin body (MkGenerator (Some l)) h).
  { rewrite (begin_alive body l n P h Hl). rewrite Hprimed.
    destruct (Exception (Promise_Resume body P).2) eqn:He; [done |].
    injection HR as _ <-.
    rewrite (begin_alive body l n (Promise_Resume body P).2);
      [| by rewrite lookup_insert_eq].
    rewrite Hprimed1, He. by rewrite insert_insert_eq. }
  split; [done |]. intros fuel. unfold iterate. by rewrite Hbegin.
Qed.

End Mixing.

Lemma Resume_before_begin_witness :
  let stmts := [Script.co_yield 1; Script.co_yield 2] in
  let h := Script.heap stmts in
  let P := initial_promise (Script.call stmts) in
  let h1 := (Resume Script.body Script.Values h).2 in
  h !! 0 = Some (MkBlock 1 (Some P))
  ∧ Resume Script.body (MkGenerator (Some 0)) h = (Returns true, h1)
  ∧ begin Script.body (MkGenerator (Some 0)) h1 = begin Script.body (MkGenerator (Some 0)) h
  ∧ ∀ fuel, iterate Script.body Script.load fuel (MkGenerator (Some 0)) h1 =
            iterate Script.body Script.load fuel (MkGenerator (Some 0)) h.
Proof.
  intros stmts h P h1.
  assert (Hl : h !! 0 = Some (MkBlock 1 (Some P))) by reflexivity.
  assert (HR : Resume Script.body (MkGenerator (Some 0)) h = (Returns true, h1))
    by reflexivity.
  exact (conj Hl (conj HR
    (Resume_before_begin Script.body Script.load 0 1 P h true h1 Hl eq_refl HR))).
Defined.
